(** * Speculative sampling (src/sampling.py): a shallow embedding.

    Tensors of the source are modelled as follows.
    - A token sequence of shape (1, L) (the batch dimension is always 1)
      is a [list nat].
    - A float32 scalar is an [ext]: a rational, +inf, -inf or NaN, with the
      IEEE rules for the operations the code uses (division by zero gives
      +inf, -inf or NaN, a quotient beyond the float32 range overflows to
      +inf or -inf, comparisons with NaN are false); finite results are
      exact (rounding is not modelled).
    - The logits an oracle returns for a sequence are one row per position,
      [list (list Q)].
    - The random number generator of torch is a state [gen] threaded through
      the code; [torch.rand(1)] and [torch.multinomial] read it.
    - Exceptions are the constructors of [error]; the state-and-error monad
      [M] threads the generator and propagates exceptions. *)

From Stdlib Require Import Arith QArith Qround List Lia Lqa Bool Permutation Sorted.
Import ListNotations.

Open Scope Q_scope.

(** ** Float32 values *)

Definition Qlt_bool (x y : Q) : bool := negb (Qle_bool y x).

Inductive ext : Type :=
| Fin (q : Q)
| PInf
| NInf
| NaN.

(** The float32 overflow bound: a result of magnitude [2^128 - 2^103] or
    more rounds to infinity. *)
Definition flt_overflow : Q := inject_Z (2 ^ 128 - 2 ^ 103).

(** [a / b]; a finite quotient beyond the float32 range overflows to
    +inf or -inf. *)
Definition ext_div (a b : ext) : ext :=
  match a, b with
  | Fin x, Fin y =>
      if Qeq_bool y 0 then
        (if Qlt_bool 0 x then PInf else if Qlt_bool x 0 then NInf else NaN)
      else
        let z := x / y in
        if Qle_bool flt_overflow z then PInf
        else if Qle_bool z (- flt_overflow) then NInf
        else Fin z
  | Fin _, (PInf | NInf) => Fin 0
  | PInf, Fin y => if Qlt_bool y 0 then NInf else PInf
  | NInf, Fin y => if Qlt_bool y 0 then PInf else NInf
  | _, _ => NaN
  end.

(** [a + b] *)
Definition ext_add (a b : ext) : ext :=
  match a, b with
  | Fin x, Fin y => Fin (x + y)
  | NaN, _ | _, NaN => NaN
  | PInf, NInf | NInf, PInf => NaN
  | PInf, _ | _, PInf => PInf
  | NInf, _ | _, NInf => NInf
  end.

(** [a - b] *)
Definition ext_sub (a b : ext) : ext :=
  match b with
  | Fin y => ext_add a (Fin (- y))
  | PInf => ext_add a NInf
  | NInf => ext_add a PInf
  | NaN => NaN
  end.

(** [a < b]; false as soon as one side is NaN. *)
Definition ext_lt (a b : ext) : bool :=
  match a, b with
  | Fin x, Fin y => Qlt_bool x y
  | NInf, (Fin _ | PInf) => true
  | Fin _, PInf => true
  | _, _ => false
  end.

(** [a > b] *)
Definition ext_gt (a b : ext) : bool := ext_lt b a.

(** [a <= b]; false as soon as one side is NaN. *)
Definition ext_le (a b : ext) : bool :=
  match a, b with
  | Fin x, Fin y => Qle_bool x y
  | NInf, (Fin _ | PInf | NInf) => true
  | (Fin _ | PInf), PInf => true
  | _, _ => false
  end.

Definition is_nan_or_pinf (a : ext) : bool :=
  match a with NaN | PInf => true | _ => false end.

(** [torch.sum] of a row. *)
Definition ext_sum (l : list ext) : ext := fold_right ext_add (Fin 0) l.

(** [torch.cumsum] of a row. *)
Fixpoint cumsum_from (acc : ext) (l : list ext) : list ext :=
  match l with
  | [] => []
  | a :: l' => let s := ext_add acc a in s :: cumsum_from s l'
  end.

Definition cumsum (l : list ext) : list ext := cumsum_from (Fin 0) l.

(** Sort key of [torch.sort] and [torch.topk]: NaN counts as the largest
    value, then +inf, the finite values, and -inf. *)
Definition key_le (a b : ext) : bool :=
  match a, b with
  | NInf, _ => true
  | Fin _, NInf => false
  | Fin x, Fin y => Qle_bool x y
  | Fin _, (PInf | NaN) => true
  | PInf, (NInf | Fin _) => false
  | PInf, (PInf | NaN) => true
  | NaN, NaN => true
  | NaN, _ => false
  end.

(** Descending sort of (value, index) pairs, by insertion (stable). *)
Fixpoint insert_desc (a : ext * nat) (l : list (ext * nat)) : list (ext * nat) :=
  match l with
  | [] => [a]
  | b :: l' => if key_le (fst a) (fst b) then b :: insert_desc a l' else a :: l
  end.

Fixpoint sort_desc (l : list (ext * nat)) : list (ext * nat) :=
  match l with
  | [] => []
  | a :: l' => insert_desc a (sort_desc l')
  end.

(** [torch.sort(logits, descending=True)]: values and indices. *)
Definition sort_with_indices (l : list ext) : list (ext * nat) :=
  sort_desc (combine l (seq 0 (length l))).

(** ** Exceptions and the state-and-error monad *)

(** Why a [RuntimeError] was raised. *)
Inductive rt_reason : Type :=
| token_id_zero          (* the bare [raise RuntimeError] of [sample] *)
| invalid_probabilities  (* torch.multinomial on NaN, inf, negative or zero-sum input *)
| shape_mismatch.        (* the operands of a subtraction do not broadcast *)

Inductive error : Type :=
| RuntimeError (why : rt_reason)
| IndexError
| AssertionError
| UnboundLocalError
| OutOfFuel.

(** The spec's name for the exception [sample] raises on token id 0. *)
Abbreviation InvalidTokenError := (RuntimeError token_id_zero).

Definition M (gen A : Type) : Type := gen -> error + (A * gen).

Definition ret {gen A} (a : A) : M gen A := fun g => inr (a, g).

Definition bind {gen A B} (m : M gen A) (f : A -> M gen B) : M gen B :=
  fun g => match m g with
           | inl e => inl e
           | inr (a, g') => f a g'
           end.

Definition raise {gen A} (e : error) : M gen A := fun _ => inl e.

Notation "x <- m ;; k" := (bind m (fun x => k))
  (at level 61, m at next level, right associativity).
Notation "' p <- m ;; k" := (bind m (fun x => match x with p => k end))
  (at level 61, p pattern, m at next level, right associativity).

(** [l[k]] and [l[-1]], raising [IndexError] out of range. *)
Definition lookup {gen A} (l : list A) (k : nat) : M gen A :=
  match nth_error l k with Some a => ret a | None => raise IndexError end.

Definition lookup_last {gen A} (l : list A) : M gen A :=
  match rev l with a :: _ => ret a | [] => raise IndexError end.

(** ** The torch kernels the code calls

    [exp] is the float exponential (it may underflow to 0), [rand] is
    [torch.rand(1)], [multinomial] is [torch.multinomial(probs, 1)]; the last
    two read and advance the generator. [multinomial] returns [None] where
    torch raises on an invalid probability vector. *)
Record Torch (gen : Type) : Type := {
  exp : Q -> Q;
  rand : gen -> Q * gen;
  multinomial : list ext -> gen -> option (nat * gen)
}.

Arguments exp {gen} _ _.
Arguments rand {gen} _ _.
Arguments multinomial {gen} _ _ _.

Section Sampler.

Context {gen : Type} (K : Torch gen).

Fixpoint max_fin (l : list ext) : option Q :=
  match l with
  | [] => None
  | Fin x :: l' =>
      match max_fin l' with
      | Some y => Some (if Qle_bool x y then y else x)
      | None => Some x
      end
  | _ :: l' => max_fin l'
  end.

(** [F.softmax] over a row: subtract the maximum, exponentiate, divide by
    the sum. A NaN or +inf entry, or a row of -inf only, gives NaN
    everywhere, as in torch. *)
Definition softmax (l : list ext) : list ext :=
  if existsb is_nan_or_pinf l then map (fun _ => NaN) l
  else match max_fin l with
       | None => map (fun _ => NaN) l
       | Some m =>
           let es := map (fun v => match v with Fin x => exp K (x - m) | _ => 0 end) l in
           let s := fold_right Qplus 0 es in
           map (fun e => ext_div (Fin e) (Fin s)) es
       end.

(** [norm_logits] on one row of finite logits. *)
Definition norm_logits (row : list Q) : list ext := softmax (map Fin row).

(** [top_k_top_p_filter] *)
Definition top_k_top_p_filter (logits : list ext) (top_k : nat) (top_p : Q) : list ext :=
  let logits :=
    if Nat.ltb 0 top_k then
      let kth := nth (Nat.min top_k (length logits) - 1)
                     (map fst (sort_with_indices logits)) NaN in
      map (fun v => if ext_lt v kth then NInf else v) logits
    else logits in
  if Qlt_bool 0 top_p then
    let sorted := sort_with_indices logits in
    let cumulative_probs := cumsum (softmax (map fst sorted)) in
    let filter := map (fun c => ext_gt c (Fin top_p)) cumulative_probs in
    let filter := match filter with [] => [] | _ :: _ => false :: removelast filter end in
    let indices_to_remove := combine (map snd sorted) filter in
    map (fun '(v, i) =>
           if existsb (fun '(k, b) => Nat.eqb k i && b) indices_to_remove then NInf else v)
        (combine logits (seq 0 (length logits)))
  else logits.

Definition multinomial_m (probs : list ext) : M gen nat :=
  fun g => match multinomial K probs g with
           | Some (i, g') => inr (i, g')
           | None => inl (RuntimeError invalid_probabilities)
           end.

Definition rand_m : M gen Q := fun g => inr (rand K g).

(** [sample] *)
Definition sample (logits : list ext) (temperature : Q) (top_k : nat) (top_p : Q) : M gen nat :=
  let logits := map (fun v => ext_div v (Fin temperature)) logits in
  let logits := top_k_top_p_filter logits top_k top_p in
  let probs := softmax logits in
  idx_next <- multinomial_m probs ;;
  if Nat.eqb idx_next 0 then raise InvalidTokenError else ret idx_next.

(** [max_fn]: the positive part of a row, normalised by its sum. *)
Definition max_fn (x : list ext) : list ext :=
  let x_max := map (fun v => if ext_gt v (Fin 0) then v else Fin 0) x in
  let x_max_sum := ext_sum x_max in
  map (fun v => ext_div v x_max_sum) x_max.

(** Row subtraction [a - b] with broadcasting of a length-1 operand. *)
Definition vsub (a b : list ext) : option (list ext) :=
  if Nat.eqb (length a) (length b) then Some (map (fun '(u, v) => ext_sub u v) (combine a b))
  else match a, b with
       | _, [v] => Some (map (fun u => ext_sub u v) a)
       | [u], _ => Some (map (fun v => ext_sub u v) b)
       | _, _ => None
       end.

End Sampler.

Close Scope Q_scope.

(** ** [speculative_sampling] *)

Section Speculative.

Context {gen : Type} (K : Torch gen).
Variables approx_model target_model : list nat -> list (list Q).
Variables (gamma : nat) (temperature : Q) (top_k : nat) (top_p : Q).

(** The drafting loop [for _ in range(gamma)]: [q] holds the logits of the
    last call of [approx_model]; it is unbound before the first iteration. *)
Fixpoint draft_loop (k : nat) (x : list nat) (q : option (list (list Q)))
  : M gen (list nat * option (list (list Q))) :=
  match k with
  | O => ret (x, q)
  | S k' =>
      let q := approx_model x in
      row <- lookup_last q ;;
      next_tok <- sample K (map Fin row) temperature top_k top_p ;;
      draft_loop k' (x ++ [next_tok]) (Some q)
  end.

(** [(p[:, prefix_len + i - 1, j]) / (q[:, prefix_len + i - 1, j])] with
    [j = x[:, prefix_len + i]]; [None] where an index is out of range. *)
Definition ratio_at (p q : list (list ext)) (x : list nat) (prefix_len i : nat)
  : option ext :=
  match nth_error x (prefix_len + i) with
  | None => None
  | Some j =>
      match nth_error p (prefix_len + i - 1), nth_error q (prefix_len + i - 1) with
      | Some prow, Some qrow =>
          match nth_error prow j, nth_error qrow j with
          | Some pj, Some qj => Some (ext_div pj qj)
          | _, _ => None
          end
      | _, _ => None
      end
  end.

(** The rejection test [r > ratio]. *)
Definition reject_test (r : Q) (ratio : ext) : bool := ext_gt (Fin r) ratio.

(** The verification loop [for i in range(gamma)] with its [break]; it
    returns [n]. [i] counts the iterations done, [k] those left. *)
Fixpoint accept_scan (p q : list (list ext)) (x : list nat) (prefix_len i k : nat)
  : M gen nat :=
  match k with
  | O => ret (prefix_len + gamma - 1)
  | S k' =>
      r <- rand_m K ;;
      match ratio_at p q x prefix_len i with
      | None => raise IndexError
      | Some ratio =>
          if reject_test r ratio then ret (prefix_len + i - 1)
          else accept_scan p q x prefix_len (S i) k'
      end
  end.

(** The token appended at the end of a round. *)
Definition next_token (p q : list (list ext)) (prefix_len n : nat) : M gen nat :=
  if Nat.ltb n (prefix_len + gamma - 1) then
    prow <- lookup p n ;;
    qrow <- lookup q n ;;
    match vsub prow qrow with
    | None => raise (RuntimeError shape_mismatch)
    | Some d => sample K (max_fn d) temperature top_k top_p
    end
  else if Nat.eqb n (length p - 1) then
    prow <- lookup_last p ;;
    sample K prow temperature top_k top_p
  else raise AssertionError.

(** One iteration of the [while] loop: draft, verify, truncate, append.
    It returns the new [prefix] and [n]. *)
Definition spec_round (prefix : list nat) : M gen (list nat * nat) :=
  let prefix_len := length prefix in
  '(x, qo) <- draft_loop gamma prefix None ;;
  match qo with
  | None => raise UnboundLocalError
  | Some qlogits =>
      let q := map (norm_logits K) qlogits in
      let p := map (norm_logits K) (target_model x) in
      n <- accept_scan p q x prefix_len 0 gamma ;;
      if Nat.leb (prefix_len - 1) n then
        let prefix := firstn (n + 1) x in
        t <- next_token p q prefix_len n ;;
        ret (prefix ++ [t], n)
      else raise AssertionError
  end.

(** [while prefix.shape[1] < T]; [fuel] bounds the number of iterations and
    runs out with [OutOfFuel]. *)
Fixpoint spec_loop (fuel T : nat) (prefix : list nat) : M gen (list nat) :=
  if Nat.ltb (length prefix) T then
    match fuel with
    | O => raise OutOfFuel
    | S fuel' =>
        '(prefix, _) <- spec_round prefix ;;
        spec_loop fuel' T prefix
    end
  else ret prefix.

(** [speculative_sampling]; the loop is given [max_len] iterations, which
    never run out (see the termination theorem). *)
Definition speculative_sampling (prefix : list nat) (max_len : nat) : M gen (list nat) :=
  let seq_len := length prefix in
  let T := (seq_len + max_len)%nat in
  spec_loop max_len T prefix.

End Speculative.

(** ** [autoregressive_sampling] *)

Section Autoregressive.

Context {gen : Type} (K : Torch gen).
Variable model : list nat -> list (list Q).
Variables (temperature : Q) (top_k : nat) (top_p : Q).

(** [while n < T]; [fuel] bounds the number of iterations. *)
Fixpoint ar_loop (fuel n T : nat) (x : list nat) : M gen (list nat) :=
  if Nat.ltb n T then
    match fuel with
    | O => raise OutOfFuel
    | S fuel' =>
        logits <- lookup_last (model x) ;;
        idx_next <- sample K (map Fin logits) temperature top_k top_p ;;
        ar_loop fuel' (S n) T (x ++ [idx_next])
    end
  else ret x.

(** [autoregressive_sampling]: [len(x)] of the (1, L) tensor [x] is its
    batch size 1, so [n] starts at 1 and [T = 1 + N]. *)
Definition autoregressive_sampling (x : list nat) (N : nat) : M gen (list nat) :=
  let n := 1%nat in
  let T := (1 + N)%nat in
  ar_loop N n T x.

End Autoregressive.


(** ** Reference formulations used to state the claims *)

(** The first [k] uniform draws [torch.rand(1)] and the generator after them. *)
Fixpoint draws {gen} (K : Torch gen) (k : nat) (g : gen) : list Q * gen :=
  match k with
  | O => ([], g)
  | S k' =>
      let (r, g1) := rand K g in
      let (rs, g2) := draws K k' g1 in
      (r :: rs, g2)
  end.

(** The acceptance boundary of a round read off the draws [rs]: offsets
    [i, i+1, ..] are tested in order with [accepts]; the first refused offset
    [i] gives [n = prefix_len + i - 1], no refusal gives
    [n = prefix_len + gamma - 1]. The second component is the number of draws
    read; [None] if a probability is missing. *)
Fixpoint boundary_from (accepts : Q -> ext -> bool) (p q : list (list ext))
    (x : list nat) (prefix_len gamma i : nat) (rs : list Q) (k : nat)
  : option (nat * nat) :=
  match k with
  | O => Some (prefix_len + gamma - 1, i)%nat
  | S k' =>
      match ratio_at p q x prefix_len i with
      | None => None
      | Some ratio =>
          if accepts (nth i rs 0%Q) ratio
          then boundary_from accepts p q x prefix_len gamma (S i) rs k'
          else Some (prefix_len + i - 1, S i)%nat
      end
  end.

(** Acceptance as the spec words it: [r <= target_prob / draft_prob]. *)
Definition spec_accepts (r : Q) (ratio : ext) : bool := ext_le (Fin r) ratio.

(** Acceptance as the code decides it: not [r > ratio]. *)
Definition code_accepts (r : Q) (ratio : ext) : bool := negb (reject_test r ratio).

(** [k] iterations of a step of the state-and-error monad. *)
Fixpoint iterM {gen A} (k : nat) (f : A -> M gen A) (a : A) : M gen A :=
  match k with
  | O => ret a
  | S k' => b <- f a ;; iterM k' f b
  end.

(** One step of autoregressive generation: one oracle call, one sample at the
    last position, one appended token. *)
Definition ar_step {gen} (K : Torch gen) (model : list nat -> list (list Q))
    (temperature : Q) (top_k : nat) (top_p : Q) (x : list nat) : M gen (list nat) :=
  logits <- lookup_last (model x) ;;
  idx_next <- sample K (map Fin logits) temperature top_k top_p ;;
  ret (x ++ [idx_next]).

(** An oracle is causal when the rows of a sequence do not change when the
    sequence is extended. *)
Definition causal (f : list nat -> list (list Q)) : Prop :=
  forall y z k, (k < length y)%nat -> nth_error (f y) k = nth_error (f (y ++ z)) k.

(** ** A concrete runtime for running the code on examples

    The generator is a stream of pre-drawn numbers; [rand] returns the
    fractional part of the next one. [multinomial] is inverse-CDF sampling
    with the next number of the stream. [exp] is a positive, increasing
    stand-in for the float exponential on [x <= 0] (the only arguments
    [softmax] passes it) that underflows to 0 below -104, as float32 does. *)
Module Testbed.

Open Scope Q_scope.

Definition frac (r : Q) : Q := r - inject_Z (Qfloor r).

Definition rand_frac (g : list Q) : Q * list Q :=
  match g with
  | r :: g' => (frac r, g')
  | [] => (0, [])
  end.

Fixpoint fin_weights (l : list ext) : option (list Q) :=
  match l with
  | [] => Some []
  | Fin w :: l' =>
      if Qle_bool 0 w then
        match fin_weights l' with Some ws => Some (w :: ws) | None => None end
      else None
  | _ :: _ => None
  end.

Fixpoint pick_from (acc t : Q) (i : nat) (ws : list Q) : option nat :=
  match ws with
  | [] => None
  | w :: ws' => if Qlt_bool t (acc + w) then Some i else pick_from (acc + w) t (S i) ws'
  end.

Fixpoint last_positive (i : nat) (ws : list Q) : option nat :=
  match ws with
  | [] => None
  | w :: ws' =>
      match last_positive (S i) ws' with
      | Some k => Some k
      | None => if Qlt_bool 0 w then Some i else None
      end
  end.

Definition multinomial_inv (probs : list ext) (g : list Q) : option (nat * list Q) :=
  match fin_weights probs with
  | None => None
  | Some ws =>
      let total := fold_right Qplus 0 ws in
      if Qlt_bool 0 total then
        let '(u, g') := rand_frac g in
        match pick_from 0 (u * total) 0 ws with
        | Some i => Some (i, g')
        | None => match last_positive 0 ws with
                  | Some i => Some (i, g')
                  | None => None
                  end
        end
      else None
  end.

Definition exp_test (x : Q) : Q :=
  if Qle_bool x (-104) then 0
  else if Qle_bool x 0 then 1 / (1 - x) else 1 + x.

Definition torch : Torch (list Q) :=
  {| exp := exp_test; rand := rand_frac; multinomial := multinomial_inv |}.

(** An oracle whose row at a position depends only on the token there. *)
Definition row_of (t : nat) : list Q :=
  match t with
  | 1%nat => [0; 1; 2]
  | 2%nat => [0; 2; 1]
  | _ => [0; 1; 1]
  end.

Definition causal_lm (x : list nat) : list (list Q) := map row_of x.

(** Oracles whose softmax underflows: token 1 scores -200 below the others,
    so its raw probability is 0 in float32, while a high temperature still
    lets the drafter sample it. *)
Definition underflow_lm (x : list nat) : list (list Q) := map (fun _ => [0; -200; 0]) x.

Definition flat_lm (x : list nat) : list (list Q) := map (fun _ => [0; 0; 0]) x.

(** A stream of pre-drawn numbers. *)
Definition halves : list Q := [1#2; 1#2; 1#2].

End Testbed.


(** * Facts about the monad *)

Lemma bind_inr {gen A B} (m : M gen A) (f : A -> M gen B) g b g' :
  bind m f g = inr (b, g') -> exists a g1, m g = inr (a, g1) /\ f a g1 = inr (b, g').
Proof.
  unfold bind. destruct (m g) as [e | [a g1]]; [discriminate | eauto].
Qed.

Ltac inv_bind H :=
  let a := fresh "a" in let g := fresh "g" in let Hm := fresh "Hm" in
  apply bind_inr in H; destruct H as (a & g & Hm & H).

Ltac inv_ret H := unfold ret in H; injection H; clear H; intros; subst.

Lemma lookup_inr {gen A} (l : list A) k (g : gen) a g' :
  lookup l k g = inr (a, g') -> nth_error l k = Some a /\ g' = g.
Proof.
  unfold lookup. destruct (nth_error l k); [|discriminate]. intros H. now inv_ret H.
Qed.

Lemma lookup_last_inr {gen A} (l : list A) (g : gen) a g' d :
  lookup_last l g = inr (a, g') -> last l d = a /\ g' = g.
Proof.
  unfold lookup_last. destruct (rev l) as [|b r] eqn:E; [discriminate|].
  intros H. inv_ret H. split; [|reflexivity].
  rewrite <- (rev_involutive l), E. simpl. apply last_last.
Qed.

Create HintDb oof.

(** [m] never raises [OutOfFuel]. *)
Definition never_oof {gen A} (m : M gen A) : Prop := forall g, m g <> inl OutOfFuel.

Lemma ret_never_oof {gen A} (a : A) : @never_oof gen A (ret a).
Proof. intros g. discriminate. Qed.

Lemma raise_never_oof {gen A} e : e <> OutOfFuel -> @never_oof gen A (raise e).
Proof. intros He g H. injection H. exact He. Qed.

Lemma bind_never_oof {gen A B} (m : M gen A) (f : A -> M gen B) :
  never_oof m -> (forall a, never_oof (f a)) -> never_oof (bind m f).
Proof.
  intros Hm Hf g. unfold bind. destruct (m g) as [e | [a g1]] eqn:E.
  - intros H. injection H as ->. exact (Hm g E).
  - apply Hf.
Qed.

Lemma lookup_never_oof {gen A} (l : list A) k : @never_oof gen A (lookup l k).
Proof.
  unfold lookup. destruct (nth_error l k).
  - apply ret_never_oof.
  - apply raise_never_oof. discriminate.
Qed.

Lemma lookup_last_never_oof {gen A} (l : list A) : @never_oof gen A (lookup_last l).
Proof.
  unfold lookup_last. destruct (rev l).
  - apply raise_never_oof. discriminate.
  - apply ret_never_oof.
Qed.

#[export] Hint Resolve ret_never_oof bind_never_oof lookup_never_oof
  lookup_last_never_oof : oof.

(** * Facts about [sample] *)

Lemma sample_nonzero {gen} (K : Torch gen) l T k p g t g' :
  sample K l T k p g = inr (t, g') -> t <> 0%nat.
Proof.
  unfold sample. intros H. inv_bind H.
  destruct (Nat.eqb a 0) eqn:E; [discriminate|].
  inv_ret H. apply Nat.eqb_neq. exact E.
Qed.

Lemma sample_never_oof {gen} (K : Torch gen) l T k p : never_oof (sample K l T k p).
Proof.
  unfold sample. apply bind_never_oof.
  - intros g. unfold multinomial_m. destruct (multinomial K _ g) as [[i g']|]; discriminate.
  - intros a. destruct (Nat.eqb a 0).
    + apply raise_never_oof. discriminate.
    + apply ret_never_oof.
Qed.

#[export] Hint Resolve sample_never_oof : oof.

(** * Facts about one round of [speculative_sampling] *)

Section RoundFacts.

Context {gen : Type} (K : Torch gen).
Variables approx_model target_model : list nat -> list (list Q).
Variables (gamma : nat) (temperature : Q) (top_k : nat) (top_p : Q).

Lemma draft_loop_inr k x qo g x' qo' g' :
  draft_loop K approx_model temperature top_k top_p k x qo g = inr ((x', qo'), g') ->
  exists d, x' = x ++ d /\ length d = k /\ Forall (fun t => t <> 0%nat) d /\
    (k = 0%nat -> qo' = qo) /\
    (forall k', k = S k' -> exists x1 t, x' = x1 ++ [t] /\
                   qo' = Some (approx_model x1) /\ length x1 = (length x + k')%nat).
Proof.
  revert x qo g. induction k as [|k IH]; intros x qo g H; simpl in H.
  - inv_ret H. exists []. rewrite app_nil_r. repeat split; auto; discriminate.
  - inv_bind H. inv_bind H. apply sample_nonzero in Hm0.
    destruct (IH _ _ _ H) as (d & -> & Hlen & Hnz & H0 & HS).
    exists (a0 :: d). rewrite <- app_assoc. repeat split; simpl; auto.
    + discriminate.
    + intros k' [= <-]. destruct k as [|k''].
      * exists x, a0. rewrite H0 by reflexivity. destruct d; [|discriminate].
        rewrite ?app_nil_r. repeat split; try reflexivity; lia.
      * destruct (HS k'' eq_refl) as (x1 & t & Hx & Hq & Hl).
        exists x1, t. repeat split; auto.
        -- rewrite <- Hx, <- app_assoc. reflexivity.
        -- rewrite Hl, length_app. simpl. lia.
Qed.

Lemma draft_loop_never_oof k x qo :
  never_oof (draft_loop K approx_model temperature top_k top_p k x qo).
Proof.
  revert x qo. induction k as [|k IH]; intros x qo; simpl; eauto with oof.
Qed.

Lemma accept_scan_range p q x pl i k g n g' :
  accept_scan K gamma p q x pl i k g = inr (n, g') -> (i + k = gamma)%nat ->
  (pl + i - 1 <= n <= pl + gamma - 1)%nat.
Proof.
  revert i g. induction k as [|k IH]; intros i g H Hk; simpl in H.
  - inv_ret H. lia.
  - inv_bind H. destruct (ratio_at p q x pl i); [|discriminate].
    destruct (reject_test a _).
    + inv_ret H. lia.
    + apply IH in H; lia.
Qed.

Lemma accept_scan_never_oof p q x pl i k : never_oof (accept_scan K gamma p q x pl i k).
Proof.
  revert i. induction k as [|k IH]; intros i; simpl; auto with oof.
  apply bind_never_oof.
  - intros g. discriminate.
  - intros r. destruct (ratio_at p q x pl i).
    + destruct (reject_test r e); auto with oof.
    + apply raise_never_oof. discriminate.
Qed.

Lemma next_token_inr p q pl n g t g' :
  next_token K gamma temperature top_k top_p p q pl n g = inr (t, g') -> t <> 0%nat.
Proof.
  unfold next_token. intros H.
  destruct (Nat.ltb n (pl + gamma - 1)).
  - inv_bind H. inv_bind H. destruct (vsub a a0); [|discriminate].
    eapply sample_nonzero; eauto.
  - destruct (Nat.eqb n (length p - 1)); [|discriminate].
    inv_bind H. eapply sample_nonzero; eauto.
Qed.

Lemma next_token_never_oof p q pl n :
  never_oof (next_token K gamma temperature top_k top_p p q pl n).
Proof.
  unfold next_token. destruct (Nat.ltb n (pl + gamma - 1)).
  - apply bind_never_oof; auto with oof. intros a.
    apply bind_never_oof; auto with oof. intros b. destruct (vsub a b); auto with oof.
    apply raise_never_oof. discriminate.
  - destruct (Nat.eqb n (length p - 1)); auto with oof.
    apply raise_never_oof. discriminate.
Qed.

(** The steps of a successful round. *)
Lemma spec_round_inr prefix g res n g' :
  spec_round K approx_model target_model gamma temperature top_k top_p prefix g
    = inr ((res, n), g') ->
  exists x ql g1 g2 t,
    draft_loop K approx_model temperature top_k top_p gamma prefix None g
      = inr ((x, Some ql), g1) /\
    accept_scan K gamma (map (norm_logits K) (target_model x)) (map (norm_logits K) ql)
      x (length prefix) 0 gamma g1 = inr (n, g2) /\
    (length prefix - 1 <= n)%nat /\
    next_token K gamma temperature top_k top_p (map (norm_logits K) (target_model x))
      (map (norm_logits K) ql) (length prefix) n g2 = inr (t, g') /\
    res = firstn (n + 1) x ++ [t].
Proof.
  unfold spec_round. intros H. inv_bind H. destruct a as [x [ql|]]; [|discriminate].
  inv_bind H. destruct (Nat.leb (length prefix - 1) a) eqn:Hle; [|discriminate].
  inv_bind H. inv_ret H.
  do 5 eexists. split; [eassumption|]. split; [eassumption|].
  split; [apply Nat.leb_le; eassumption|]. split; [eassumption|reflexivity].
Qed.

Lemma spec_round_never_oof prefix :
  never_oof (spec_round K approx_model target_model gamma temperature top_k top_p prefix).
Proof.
  unfold spec_round. apply bind_never_oof; [apply draft_loop_never_oof|].
  intros [x [ql|]].
  - apply bind_never_oof; [apply accept_scan_never_oof|]. intros n.
    destruct (Nat.leb _ n).
    + apply bind_never_oof; [apply next_token_never_oof|]. auto with oof.
    + apply raise_never_oof. discriminate.
  - apply raise_never_oof. discriminate.
Qed.

Lemma spec_round_length prefix g res n g' :
  spec_round K approx_model target_model gamma temperature top_k top_p prefix g
    = inr ((res, n), g') ->
  (length prefix + 1 <= length res <= length prefix + gamma + 1)%nat.
Proof.
  intros H. destruct (spec_round_inr _ _ _ _ _ H) as (x & ql & g1 & g2 & t & Hd & Hs & Hn & Ht & ->).
  destruct (draft_loop_inr _ _ _ _ _ _ _ Hd) as (d & -> & Hlen & _ & H0 & _).
  assert (Hg : gamma <> 0%nat) by (intros E; specialize (H0 E); discriminate).
  apply accept_scan_range in Hs; [|lia].
  rewrite length_app, length_firstn, length_app. simpl. lia.
Qed.

Lemma spec_round_nonzero prefix g res n g' :
  spec_round K approx_model target_model gamma temperature top_k top_p prefix g
    = inr ((res, n), g') ->
  exists d, res = prefix ++ d /\ Forall (fun t => t <> 0%nat) d.
Proof.
  intros H. destruct (spec_round_inr _ _ _ _ _ H) as (x & ql & g1 & g2 & t & Hd & Hs & Hn & Ht & ->).
  destruct (draft_loop_inr _ _ _ _ _ _ _ Hd) as (d & -> & Hlen & Hnz & _ & _).
  apply next_token_inr in Ht.
  rewrite firstn_app, (firstn_all2 prefix) by lia.
  exists (firstn (n + 1 - length prefix) d ++ [t]). rewrite app_assoc. split; [reflexivity|].
  apply Forall_app. split; [|auto].
  rewrite Forall_forall in *. intros y Hy. apply Hnz.
  rewrite <- (firstn_skipn (n + 1 - length prefix) d). apply in_or_app. auto.
Qed.

End RoundFacts.

(** * Facts about the loops *)

Section LoopFacts.

Context {gen : Type} (K : Torch gen).
Variables approx_model target_model : list nat -> list (list Q).
Variables (gamma : nat) (temperature : Q) (top_k : nat) (top_p : Q).

Lemma spec_loop_not_oof fuel T prefix g :
  (T - length prefix <= fuel)%nat ->
  spec_loop K approx_model target_model gamma temperature top_k top_p fuel T prefix g
    <> inl OutOfFuel.
Proof.
  revert prefix g. induction fuel as [|fuel IH]; intros prefix g Hf; simpl.
  - destruct (Nat.ltb (length prefix) T) eqn:E.
    + apply Nat.ltb_lt in E. lia.
    + discriminate.
  - destruct (Nat.ltb (length prefix) T) eqn:E; [|discriminate].
    unfold bind.
    destruct (spec_round K approx_model target_model gamma temperature top_k top_p prefix g)
      as [e | [[res n] g1]] eqn:Er.
    + intros H. injection H as ->. eapply spec_round_never_oof. exact Er.
    + apply spec_round_length in Er. apply IH. lia.
Qed.

Lemma spec_loop_bounds fuel T prefix g L g' :
  spec_loop K approx_model target_model gamma temperature top_k top_p fuel T prefix g
    = inr (L, g') ->
  (length prefix <= T + gamma)%nat -> (T <= length L <= T + gamma)%nat.
Proof.
  revert prefix g. induction fuel as [|fuel IH]; intros prefix g H Hp; simpl in H.
  - destruct (Nat.ltb (length prefix) T) eqn:E; [discriminate|].
    apply Nat.ltb_ge in E. inv_ret H. lia.
  - destruct (Nat.ltb (length prefix) T) eqn:E.
    + apply Nat.ltb_lt in E. inv_bind H. destruct a as [res n].
      apply spec_round_length in Hm. apply IH in H; [exact H | lia].
    + apply Nat.ltb_ge in E. inv_ret H. lia.
Qed.

Lemma spec_loop_nonzero fuel T prefix g L g' :
  spec_loop K approx_model target_model gamma temperature top_k top_p fuel T prefix g
    = inr (L, g') ->
  exists d, L = prefix ++ d /\ Forall (fun t => t <> 0%nat) d.
Proof.
  revert prefix g. induction fuel as [|fuel IH]; intros prefix g H; simpl in H.
  - destruct (Nat.ltb (length prefix) T); [discriminate|].
    inv_ret H. exists []. rewrite app_nil_r. auto.
  - destruct (Nat.ltb (length prefix) T).
    + inv_bind H. destruct a as [res n].
      apply spec_round_nonzero in Hm. destruct Hm as (d1 & -> & Hd1).
      apply IH in H. destruct H as (d2 & -> & Hd2).
      exists (d1 ++ d2). rewrite app_assoc. split; [reflexivity|].
      apply Forall_app. auto.
    + inv_ret H. exists []. rewrite app_nil_r. auto.
Qed.

Lemma ar_loop_iter model T f n x g :
  (T - n = f)%nat ->
  ar_loop K model temperature top_k top_p f n T x g
    = iterM f (ar_step K model temperature top_k top_p) x g.
Proof.
  revert n x g. induction f as [|f IH]; intros n x g Hf; simpl.
  - destruct (Nat.ltb n T) eqn:E; [apply Nat.ltb_lt in E; lia | reflexivity].
  - destruct (Nat.ltb n T) eqn:E; [|apply Nat.ltb_ge in E; lia].
    unfold ar_step, bind.
    destruct (lookup_last (model x) g) as [e | [logits g1]]; [reflexivity|].
    destruct (sample K (map Fin logits) temperature top_k top_p g1)
      as [e | [idx g2]]; [reflexivity|].
    apply IH. lia.
Qed.

Lemma iterM_ar_step model k x g L g' :
  iterM k (ar_step K model temperature top_k top_p) x g = inr (L, g') ->
  exists d, L = x ++ d /\ length d = k /\ Forall (fun t => t <> 0%nat) d.
Proof.
  revert x g. induction k as [|k IH]; intros x g H; simpl in H.
  - inv_ret H. exists []. rewrite app_nil_r. auto.
  - inv_bind H. unfold ar_step in Hm. inv_bind Hm. inv_bind Hm. inv_ret Hm.
    apply sample_nonzero in Hm1.
    apply IH in H. destruct H as (d & -> & Hl & Hd).
    exists (a1 :: d). rewrite <- app_assoc. simpl. auto.
Qed.

(** ** C6 *)

(** C6: every round of [speculative_sampling] that completes makes the
    sequence longer by at least 1 and at most [gamma + 1] tokens; the loop
    [while len < prefix length + max_len] never needs more than [max_len]
    rounds: given [max_len] rounds or more it never runs out, so
    [speculative_sampling] always terminates (normally or by an exception of
    the code). *)
Theorem round_progress_and_termination :
  (forall prefix g res n g',
     spec_round K approx_model target_model gamma temperature top_k top_p prefix g
       = inr ((res, n), g') ->
     (length prefix + 1 <= length res <= length prefix + gamma + 1)%nat) /\
  (forall prefix max_len fuel g,
     (max_len <= fuel)%nat ->
     spec_loop K approx_model target_model gamma temperature top_k top_p
       fuel (length prefix + max_len) prefix g <> inl OutOfFuel) /\
  (forall prefix max_len g,
     speculative_sampling K approx_model target_model gamma temperature top_k top_p
       prefix max_len g <> inl OutOfFuel).
Proof.
  split; [|split].
  - intros prefix g res n g'. apply spec_round_length.
  - intros prefix max_len fuel g Hf. apply spec_loop_not_oof. lia.
  - intros prefix max_len g. unfold speculative_sampling. apply spec_loop_not_oof. lia.
Qed.

(** ** C10 *)

(** C10: a run of [speculative_sampling] that completes returns at least the
    [max_len] requested tokens after the prefix and at most [gamma] more. *)
Theorem speculative_sampling_length prefix max_len g L g' :
  speculative_sampling K approx_model target_model gamma temperature top_k top_p
    prefix max_len g = inr (L, g') ->
  (length prefix + max_len <= length L <= length prefix + max_len + gamma)%nat.
Proof.
  unfold speculative_sampling. intros H. apply spec_loop_bounds in H; lia.
Qed.

(** ** C7 *)

(** C7: when the weighted draw of [sample] gives token id 0, [sample] raises
    [InvalidTokenError] (the [raise RuntimeError] of the code); [sample] never
    returns 0; the exception aborts the generation, so no completed run of
    [speculative_sampling] or [autoregressive_sampling] contains a generated
    token 0. *)
Theorem sample_token_zero_raises :
  (forall logits T k p g g',
     multinomial K (softmax K (top_k_top_p_filter K
       (map (fun v => ext_div v (Fin T)) logits) k p)) g = Some (0%nat, g') ->
     sample K logits T k p g = inl InvalidTokenError) /\
  (forall logits T k p g t g', sample K logits T k p g = inr (t, g') -> t <> 0%nat) /\
  (forall prefix max_len g L g',
     speculative_sampling K approx_model target_model gamma temperature top_k top_p
       prefix max_len g = inr (L, g') ->
     exists d, L = prefix ++ d /\ Forall (fun t => t <> 0%nat) d) /\
  (forall model x N g L g',
     autoregressive_sampling K model temperature top_k top_p x N g = inr (L, g') ->
     exists d, L = x ++ d /\ Forall (fun t => t <> 0%nat) d).
Proof.
  split; [|split; [|split]].
  - intros logits T k p g g' H. unfold sample, bind, multinomial_m. rewrite H. reflexivity.
  - intros logits T k p g t g'. apply sample_nonzero.
  - intros prefix max_len g L g'. unfold speculative_sampling. apply spec_loop_nonzero.
  - intros model x N g L g' H. unfold autoregressive_sampling in H.
    rewrite (ar_loop_iter model (1 + N) N 1 x g) in H by lia.
    apply iterM_ar_step in H. destruct H as (d & -> & _ & Hd). eauto.
Qed.

(** ** C9 *)

(** C9: [autoregressive_sampling x N] is [N] steps, each calling the oracle
    once on the current sequence and [sample] once on the row of its last
    position, and appending that token; a completed run returns [x] followed
    by exactly [N] tokens. *)
Theorem autoregressive_sampling_steps model x N :
  (forall g, autoregressive_sampling K model temperature top_k top_p x N g
             = iterM N (ar_step K model temperature top_k top_p) x g) /\
  (forall g L g', autoregressive_sampling K model temperature top_k top_p x N g
                    = inr (L, g') ->
     exists d, L = x ++ d /\ length d = N).
Proof.
  assert (Hit : forall g, autoregressive_sampling K model temperature top_k top_p x N g
                          = iterM N (ar_step K model temperature top_k top_p) x g).
  { intros g. unfold autoregressive_sampling. apply ar_loop_iter. lia. }
  split; [exact Hit|].
  intros g L g' H. rewrite Hit in H. apply iterM_ar_step in H.
  destruct H as (d & -> & Hl & _). eauto.
Qed.

(** ** C2 *)

(** C2: the token a round appends is drawn by [sample], with the round's
    temperature, top_k and top_p, from [max_fn (p[n] - q[n])] (target minus
    draft probabilities at position [n], negatives clamped to 0,
    renormalised) when a drafted token was rejected
    ([n < prefix_len + gamma - 1]). Otherwise it is drawn by [sample] on the
    target probability row at the last position: that row is divided by
    the temperature, filtered and passed through the softmax again, as if
    it were a row of logits, so the draw is not from the target
    distribution itself. *)
Theorem round_next_token prefix g res n g' :
  spec_round K approx_model target_model gamma temperature top_k top_p prefix g
    = inr ((res, n), g') ->
  exists x ql g1 g2 t,
    draft_loop K approx_model temperature top_k top_p gamma prefix None g
      = inr ((x, Some ql), g1) /\
    accept_scan K gamma (map (norm_logits K) (target_model x)) (map (norm_logits K) ql)
      x (length prefix) 0 gamma g1 = inr (n, g2) /\
    res = firstn (n + 1) x ++ [t] /\
    ((n < length prefix + gamma - 1)%nat ->
       exists d,
         vsub (nth n (map (norm_logits K) (target_model x)) [])
              (nth n (map (norm_logits K) ql) []) = Some d /\
         sample K (max_fn d) temperature top_k top_p g2 = inr (t, g')) /\
    (~ (n < length prefix + gamma - 1)%nat ->
       sample K (last (map (norm_logits K) (target_model x)) []) temperature top_k top_p g2
         = inr (t, g')).
Proof.
  intros H. apply spec_round_inr in H.
  destruct H as (x & ql & g1 & g2 & t & Hd & Hs & Hn & Ht & ->).
  exists x, ql, g1, g2, t. split; [exact Hd|]. split; [exact Hs|]. split; [reflexivity|].
  unfold next_token in Ht.
  destruct (Nat.ltb n (length prefix + gamma - 1)) eqn:E.
  - apply Nat.ltb_lt in E. split; [|intros Hc; contradiction].
    intros _. inv_bind Ht. inv_bind Ht.
    apply lookup_inr in Hm. destruct Hm as [Hp ->].
    apply lookup_inr in Hm0. destruct Hm0 as [Hq ->].
    rewrite (nth_error_nth _ _ _ Hp), (nth_error_nth _ _ _ Hq).
    destruct (vsub a a0) as [d|]; [|discriminate]. eauto.
  - apply Nat.ltb_ge in E. split; [intros Hc; lia|]. intros _.
    destruct (Nat.eqb n _); [|discriminate].
    inv_bind Ht. apply (lookup_last_inr _ _ _ _ []) in Hm. destruct Hm as [<- ->].
    exact Ht.
Qed.

End LoopFacts.

(** * The acceptance test *)

Lemma flt_overflow_gt1 : (1 < flt_overflow)%Q.
Proof. unfold flt_overflow. vm_compute. reflexivity. Qed.

Lemma ext_div_fin x y :
  ~ (y == 0)%Q -> (- flt_overflow < x / y < flt_overflow)%Q ->
  ext_div (Fin x) (Fin y) = Fin (x / y).
Proof.
  intros Hy [H1 H2]. unfold ext_div.
  assert (Qeq_bool y 0 = false) as ->
    by (destruct (Qeq_bool y 0) eqn:E; [apply Qeq_bool_iff in E; contradiction | reflexivity]).
  cbv zeta.
  assert (Qle_bool flt_overflow (x / y) = false) as ->
    by (destruct (Qle_bool flt_overflow (x / y)) eqn:E; [apply Qle_bool_iff in E; lra | reflexivity]).
  assert (Qle_bool (x / y) (- flt_overflow) = false) as ->
    by (destruct (Qle_bool (x / y) (- flt_overflow)) eqn:E; [apply Qle_bool_iff in E; lra | reflexivity]).
  reflexivity.
Qed.

(** A quotient in [0, 1] never overflows. *)
Lemma ext_div_unit x y : (0 < y)%Q -> (0 <= x <= y)%Q -> ext_div (Fin x) (Fin y) = Fin (x / y).
Proof.
  intros Hy [Hx Hxy]. pose proof flt_overflow_gt1 as Hf. apply ext_div_fin.
  - intros Hc. rewrite Hc in Hy. discriminate.
  - assert (0 <= x / y)%Q by (apply Qle_shift_div_l; lra).
    assert (x / y <= 1)%Q by (apply Qle_shift_div_r; lra).
    lra.
Qed.


Lemma reject_test_self (r : Q) (v : ext) :
  (r < 1)%Q -> reject_test r (ext_div v v) = false.
Proof.
  intros Hr. unfold reject_test, ext_gt.
  destruct v as [a | | |]; try reflexivity.
  destruct (Qeq_dec a 0) as [Ha | Ha].
  - unfold ext_div. rewrite (proj2 (Qeq_bool_iff a 0) Ha). unfold Qlt_bool.
    rewrite (proj2 (Qle_bool_iff a 0)) by (rewrite Ha; apply Qle_refl).
    rewrite (proj2 (Qle_bool_iff 0 a)) by (rewrite Ha; apply Qle_refl).
    reflexivity.
  - assert (H1 : (a / a == 1)%Q) by (field; exact Ha).
    pose proof flt_overflow_gt1 as Hf.
    rewrite (ext_div_fin a a Ha) by (rewrite H1; lra).
    simpl. unfold Qlt_bool. apply negb_false_iff. apply Qle_bool_iff.
    rewrite H1. apply Qlt_le_weak. exact Hr.
Qed.

Lemma reject_test_zero_den (r a b : Q) :
  (b == 0)%Q -> (0 <= a)%Q ->
  ((0 < a)%Q -> ext_div (Fin a) (Fin b) = PInf) /\
  ((a == 0)%Q -> ext_div (Fin a) (Fin b) = NaN) /\
  reject_test r (ext_div (Fin a) (Fin b)) = false.
Proof.
  intros Hb Ha. unfold ext_div.
  assert (E : Qeq_bool b 0 = true) by (apply Qeq_bool_iff; exact Hb).
  rewrite E. unfold Qlt_bool. split; [|split].
  - intros Hp. assert (Qle_bool a 0 = false) as -> by
      (destruct (Qle_bool a 0) eqn:E1; [apply Qle_bool_iff in E1; lra | reflexivity]).
    reflexivity.
  - intros Hz. rewrite (proj2 (Qle_bool_iff a 0)) by (rewrite Hz; apply Qle_refl).
    rewrite (proj2 (Qle_bool_iff 0 a) Ha). reflexivity.
  - destruct (Qle_bool a 0) eqn:E1; simpl.
    + rewrite (proj2 (Qle_bool_iff 0 a) Ha). reflexivity.
    + reflexivity.
Qed.

Section ScanFacts.

Context {gen : Type} (K : Torch gen).
Variable gamma : nat.

Lemma accept_scan_boundary p q x pl k g n g' pre :
  accept_scan K gamma p q x pl (length pre) k g = inr (n, g') ->
  exists c, boundary_from code_accepts p q x pl gamma (length pre)
              (pre ++ fst (draws K k g)) k = Some (n, c) /\
            (length pre <= c)%nat /\ g' = snd (draws K (c - length pre) g).
Proof.
  revert g pre. induction k as [|k IH]; intros g pre H; simpl in H.
  - inv_ret H. eexists. simpl. split; [reflexivity|]. rewrite Nat.sub_diag. auto.
  - inv_bind H. unfold rand_m in Hm. injection Hm as Hr. simpl.
    rewrite Hr. destruct (draws K k g0) as [rs g2] eqn:Ed. simpl.
    destruct (ratio_at p q x pl (length pre)) as [ratio|] eqn:Ea; [|discriminate].
    assert (Hnth : nth (length pre) (pre ++ a :: rs) 0%Q = a).
    { rewrite app_nth2 by lia. rewrite Nat.sub_diag. reflexivity. }
    rewrite Hnth. unfold code_accepts.
    destruct (reject_test a ratio) eqn:Ej; simpl.
    + inv_ret H. eexists. split; [reflexivity|]. split; [lia|].
      rewrite Nat.sub_succ_l, Nat.sub_diag by lia. simpl. rewrite Hr. reflexivity.
    + assert (Hlen : length (pre ++ [a]) = S (length pre))
        by (rewrite length_app; simpl; lia).
      rewrite <- Hlen in H.
      destruct (IH g0 (pre ++ [a]) H) as (c & Hc & Hi & Hg).
      rewrite Ed, Hlen in Hc. simpl in Hc. rewrite <- app_assoc in Hc. simpl in Hc.
      rewrite Hlen in Hi, Hg.
      exists c. split; [exact Hc|]. split; [lia|].
      replace (c - length pre)%nat with (S (c - S (length pre))) by lia. simpl. rewrite Hr.
      destruct (draws K (c - S (length pre)) g0). simpl in *. exact Hg.
Qed.

Lemma accept_scan_no_reject p q x pl i k g n g' :
  (forall g0, (fst (rand K g0) < 1)%Q) ->
  (forall i' ratio, (i <= i' < i + k)%nat -> ratio_at p q x pl i' = Some ratio ->
     exists v, ratio = ext_div v v) ->
  accept_scan K gamma p q x pl i k g = inr (n, g') -> n = (pl + gamma - 1)%nat.
Proof.
  intros Hrand. revert i g. induction k as [|k IH]; intros i g Hsame H; simpl in H.
  - now inv_ret H.
  - inv_bind H. unfold rand_m in Hm. injection Hm as Hr.
    destruct (ratio_at p q x pl i) as [ratio|] eqn:Ea; [|discriminate].
    destruct (Hsame i ratio ltac:(lia) Ea) as [v ->].
    rewrite reject_test_self in H.
    + apply (IH (S i) g0); [|exact H]. intros i' r' Hi'. apply Hsame. lia.
    + specialize (Hrand g). rewrite Hr in Hrand. exact Hrand.
Qed.

End ScanFacts.

Section AcceptanceClaims.

Context {gen : Type} (K : Torch gen).
Variables approx_model target_model : list nat -> list (list Q).
Variables (gamma : nat) (temperature : Q) (top_k : nat) (top_p : Q).

(** ** C1 (as corrected) *)

(** C1: a round scans the drafted tokens in order, reading one uniform draw
    per offset; it keeps the token at offset [i] when not
    [r_i > p/q] (IEEE comparison, which is [r_i <= p/q] except when the ratio
    is NaN, where the token is kept), stops at the first refusal with
    [n = prefix_len + i - 1], and otherwise ends with
    [n = prefix_len + gamma - 1]; the drafted sequence is cut to its first
    [n + 1] tokens, and the appended token is drawn after exactly the draws
    the scan read. *)
Theorem round_acceptance_boundary prefix g res n g' :
  spec_round K approx_model target_model gamma temperature top_k top_p prefix g
    = inr ((res, n), g') ->
  exists x ql g1 c t,
    draft_loop K approx_model temperature top_k top_p gamma prefix None g
      = inr ((x, Some ql), g1) /\
    boundary_from code_accepts (map (norm_logits K) (target_model x))
      (map (norm_logits K) ql) x (length prefix) gamma 0 (fst (draws K gamma g1)) gamma
      = Some (n, c) /\
    next_token K gamma temperature top_k top_p (map (norm_logits K) (target_model x))
      (map (norm_logits K) ql) (length prefix) n (snd (draws K c g1)) = inr (t, g') /\
    res = firstn (n + 1) x ++ [t] /\
    length (firstn (n + 1) x) = (n + 1)%nat.
Proof.
  intros H. apply spec_round_inr in H.
  destruct H as (x & ql & g1 & g2 & t & Hd & Hs & Hn & Ht & ->).
  pose proof Hs as Hrange.
  apply (accept_scan_boundary _ _ _ _ _ _ _ _ _ _ []) in Hs.
  destruct Hs as (c & Hc & _ & Hg). simpl in Hc, Hg. rewrite Nat.sub_0_r in Hg.
  destruct (draft_loop_inr _ _ _ _ _ _ _ _ _ _ _ _ Hd) as (d & Hx & Hlen & _ & H0 & _).
  assert (Hg0 : gamma <> 0%nat) by (intros E; specialize (H0 E); discriminate).
  apply accept_scan_range in Hrange; [|lia].
  exists x, ql, g1, c, t. split; [exact Hd|]. split; [exact Hc|].
  split; [rewrite <- Hg; exact Ht|]. split; [reflexivity|].
  rewrite length_firstn, Hx, length_app. lia.
Qed.

(** ** C3 (as corrected) *)

(** C3: when the drafter and the verifier are the same causal oracle and
    the uniform draws lie below 1, every completed round accepts all [gamma]
    drafted tokens: each ratio is [v / v], that is 1, or NaN when the
    probability underflowed to 0, and neither is rejected. *)
Theorem identical_causal_oracles_accept_all (f : list nat -> list (list Q))
    prefix g res n g' :
  causal f -> (forall g0, (fst (rand K g0) < 1)%Q) -> prefix <> [] ->
  spec_round K f f gamma temperature top_k top_p prefix g = inr ((res, n), g') ->
  n = (length prefix + gamma - 1)%nat.
Proof.
  intros Hc Hrand Hne H. apply spec_round_inr in H.
  destruct H as (x & ql & g1 & g2 & t & Hd & Hs & Hn & Ht & _).
  destruct (draft_loop_inr _ _ _ _ _ _ _ _ _ _ _ _ Hd) as (d & Hx & Hlen & _ & H0 & HS).
  assert (Hg0 : gamma <> 0%nat) by (intros E; specialize (H0 E); discriminate).
  destruct (HS (gamma - 1)%nat ltac:(lia)) as (x1 & t1 & Hx1 & Hq & Hl1).
  injection Hq as ->.
  assert (Hpl : (1 <= length prefix)%nat)
    by (destruct prefix; [contradiction | simpl; lia]).
  eapply accept_scan_no_reject; [exact Hrand| |exact Hs].
  intros i' ratio Hi' Hra. unfold ratio_at in Hra.
  destruct (nth_error x (length prefix + i')) as [j|]; [|discriminate].
  rewrite !nth_error_map in Hra. rewrite Hx1 in Hra.
  rewrite <- (Hc x1 [t1] (length prefix + i' - 1)) in Hra by lia.
  destruct (nth_error (f x1) (length prefix + i' - 1)) as [row|]; simpl in Hra;
    [|discriminate].
  destruct (nth_error (norm_logits K row) j) as [v|]; [|discriminate].
  injection Hra as <-. eauto.
Qed.

End AcceptanceClaims.

(** ** C4 (as corrected) *)

(** C4: a zero draft probability raises no fault: the ratio evaluates to
    +inf when the target probability is positive and to NaN when it is
    also zero, [r > ratio] is false in both cases, and the scan keeps the
    token and goes on to the next offset: the token is accepted, never
    rejected. *)
Theorem zero_draft_probability_accepted :
  (forall r a b, (b == 0)%Q -> (0 <= a)%Q ->
     ((0 < a)%Q -> ext_div (Fin a) (Fin b) = PInf) /\
     ((a == 0)%Q -> ext_div (Fin a) (Fin b) = NaN) /\
     reject_test r (ext_div (Fin a) (Fin b)) = false) /\
  (forall gen (K : Torch gen) gamma p q x pl i k g r g1 a b,
     rand K g = (r, g1) ->
     ratio_at p q x pl i = Some (ext_div (Fin a) (Fin b)) ->
     (b == 0)%Q -> (0 <= a)%Q ->
     accept_scan K gamma p q x pl i (S k) g = accept_scan K gamma p q x pl (S i) k g1).
Proof.
  split.
  - intros r a b. apply reject_test_zero_den.
  - intros gen K gamma p q x pl i k g r g1 a b Hr Hra Hb Ha. simpl.
    unfold bind, rand_m. rewrite Hr, Hra.
    rewrite (proj2 (proj2 (reject_test_zero_den r a b Hb Ha))). reflexivity.
Qed.

(** * The residual distribution [max_fn (p - q)] *)

Lemma elem_le_sum (l : list Q) e : Forall (Qle 0) l -> In e l -> (e <= fold_right Qplus 0%Q l)%Q.
Proof.
  induction 1 as [|a l Ha Hl IH]; intros Hin; simpl in *; [contradiction|].
  assert (Hnn : (0 <= fold_right Qplus 0%Q l)%Q) by (clear IH Hin; induction Hl; simpl; lra).
  destruct Hin as [-> | Hin]; [lra|]. specialize (IH Hin). lra.
Qed.

Section Residual.

Open Scope Q_scope.

Abbreviation sumQ := (fold_right Qplus 0).

Lemma sumQ_nonneg (l : list Q) : Forall (Qle 0) l -> 0 <= sumQ l.
Proof. induction 1; simpl; lra. Qed.

Lemma sum_lt_exists (p q : list Q) :
  length p = length q -> sumQ q < sumQ p ->
  Exists (fun '(a, b) => b < a) (combine p q).
Proof.
  revert q. induction p as [|a p IH]; intros [|b q] Hl Hs; simpl in *;
    try discriminate; try lra.
  destruct (Qlt_le_dec b a) as [Hba|Hab].
  - apply Exists_cons_hd. exact Hba.
  - apply Exists_cons_tl. apply IH; [lia | lra].
Qed.

Lemma equal_sums_exists_gt (p q : list Q) i :
  length p = length q -> sumQ p == sumQ q -> ~ (nth i p 0 == nth i q 0) ->
  Exists (fun '(a, b) => b < a) (combine p q).
Proof.
  revert q i. induction p as [|a p IH]; intros [|b q] i Hl Hs Hi; simpl in *;
    try discriminate.
  - exfalso. apply Hi. destruct i; reflexivity.
  - destruct (Qlt_le_dec b a) as [Hba|Hab].
    + apply Exists_cons_hd. exact Hba.
    + apply Exists_cons_tl. destruct (Qeq_dec a b) as [Heq|Hne].
      * destruct i as [|i]; [contradiction|].
        apply (IH q i); [lia | lra | exact Hi].
      * apply sum_lt_exists; [lia|].
        assert (a < b) by (apply Qle_lt_or_eq in Hab; destruct Hab; [assumption|contradiction]).
        lra.
Qed.

Lemma clamp_nonneg (l : list (Q * Q)) :
  Forall (Qle 0) (map (fun '(a, b) => if Qlt_bool 0 (a + - b) then a + - b else 0) l).
Proof.
  induction l as [|[a b] l IH]; simpl; constructor; auto.
  unfold Qlt_bool. destruct (Qle_bool (a + - b) 0) eqn:E; simpl; [apply Qle_refl|].
  assert (~ (a + - b <= 0)) by (intros Hc; apply Qle_bool_iff in Hc; congruence). lra.
Qed.

Lemma clamp_pos (l : list (Q * Q)) :
  Exists (fun '(a, b) => b < a) l ->
  0 < sumQ (map (fun '(a, b) => if Qlt_bool 0 (a + - b) then a + - b else 0) l).
Proof.
  induction 1 as [[a b] l Hx | [a b] l _ IH]; simpl in *.
  - pose proof (sumQ_nonneg _ (clamp_nonneg l)).
    destruct (Qlt_bool 0 (a + - b)) eqn:E.
    + lra.
    + unfold Qlt_bool in E. apply negb_false_iff, Qle_bool_iff in E. lra.
  - assert (0 <= (if Qlt_bool 0 (a + - b) then a + - b else 0)).
    { pose proof (clamp_nonneg [(a, b)]) as Hc. inversion Hc. assumption. }
    lra.
Qed.

Lemma ext_sum_fin (l : list Q) : ext_sum (map Fin l) = Fin (sumQ l).
Proof.
  unfold ext_sum. induction l as [|a l IH]; simpl; [reflexivity|]. rewrite IH. reflexivity.
Qed.

Lemma sumQ_div (l : list Q) s : ~ s == 0 -> sumQ (map (fun c => c / s) l) == sumQ l / s.
Proof.
  intros Hs. induction l as [|a l IH]; simpl.
  - field. exact Hs.
  - rewrite IH. field. exact Hs.
Qed.

Lemma Forall_div_nonneg (l : list Q) s : 0 < s -> Forall (Qle 0) l ->
  Forall (Qle 0) (map (fun c => c / s) l).
Proof.
  intros Hs. induction 1; simpl; constructor; auto.
  apply Qle_shift_div_l; [exact Hs|]. lra.
Qed.

(** ** C5 (as corrected) *)

(** C5: for two distributions [p] (target) and [q] (draft) over the same
    vocabulary that differ somewhere, [max_fn (p - q)] has only finite,
    non-negative entries summing to 1. (When [p = q] the clamped sum is 0
    and [max_fn] returns NaN everywhere.) *)
Theorem residual_distribution_valid (p q : list Q) d :
  length p = length q ->
  Forall (Qle 0) p -> Forall (Qle 0) q ->
  (fold_right Qplus 0 p == 1)%Q -> (fold_right Qplus 0 q == 1)%Q ->
  (exists i, ~ (nth i p 0 == nth i q 0)%Q) ->
  vsub (map Fin p) (map Fin q) = Some d ->
  exists ws, max_fn d = map Fin ws /\ Forall (Qle 0) ws /\ (fold_right Qplus 0 ws == 1)%Q.
Proof.
  intros Hl _ _ Hp Hq [i Hi] Hd.
  unfold vsub in Hd. rewrite !length_map, Hl, Nat.eqb_refl in Hd. injection Hd as <-.
  set (cs := map (fun '(a, b) => if Qlt_bool 0 (a + - b) then a + - b else 0) (combine p q)).
  assert (Hpos : (0 < fold_right Qplus 0 cs)%Q).
  { apply clamp_pos. apply (equal_sums_exists_gt p q i Hl); [|exact Hi].
    rewrite Hp, Hq. reflexivity. }
  assert (Hmax : map (fun v => if ext_gt v (Fin 0) then v else Fin 0)
                   (map (fun '(u, v) => ext_sub u v) (combine (map Fin p) (map Fin q)))
                 = map Fin cs).
  { unfold cs. clear. revert q. induction p as [|a p IH]; intros [|b q]; simpl; auto.
    rewrite IH. f_equal. unfold ext_gt. simpl. destruct (Qlt_bool 0 (a + - b)); reflexivity. }
  exists (map (fun c => c / fold_right Qplus 0 cs)%Q cs).
  unfold max_fn. rewrite Hmax, ext_sum_fin. split; [|split].
  - pose proof (clamp_nonneg (combine p q)) as Hcs. fold cs in Hcs.
    rewrite !map_map. apply map_ext_in. intros c Hc. simpl.
    apply ext_div_unit; [exact Hpos|]. split.
    + rewrite Forall_forall in Hcs. exact (Hcs c Hc).
    + exact (elem_le_sum cs c Hcs Hc).
  - apply Forall_div_nonneg; [exact Hpos|]. apply clamp_nonneg.
  - rewrite sumQ_div.
    + field. intros Hc. rewrite Hc in Hpos. discriminate.
    + intros Hc. rewrite Hc in Hpos. discriminate.
Qed.

End Residual.

(** * Sorting and the top-k / top-p filter *)

Section SortFacts.

Lemma key_le_refl a : key_le a a = true.
Proof. destruct a; simpl; auto. apply Qle_bool_iff, Qle_refl. Qed.

Lemma key_le_total a b : key_le a b = false -> key_le b a = true.
Proof.
  destruct a, b; simpl; try discriminate; auto.
  intros H. apply Qle_bool_iff. apply Qlt_le_weak, Qnot_le_lt.
  intros Hc. apply Qle_bool_iff in Hc. congruence.
Qed.

Lemma key_le_trans a b c : key_le a b = true -> key_le b c = true -> key_le a c = true.
Proof.
  destruct a, b, c; simpl; try discriminate; auto.
  rewrite !Qle_bool_iff. apply Qle_trans.
Qed.

Lemma insert_desc_perm a l : Permutation (insert_desc a l) (a :: l).
Proof.
  induction l as [|b l IH]; simpl; [reflexivity|].
  destruct (key_le (fst a) (fst b)); [|reflexivity].
  rewrite IH. apply perm_swap.
Qed.

Lemma sort_desc_perm l : Permutation (sort_desc l) l.
Proof.
  induction l as [|a l IH]; simpl; [reflexivity|].
  rewrite insert_desc_perm, IH. reflexivity.
Qed.

Lemma insert_desc_head a s :
  (forall h t, s = h :: t -> forall b, In b t -> key_le (fst b) (fst h) = true) ->
  forall h t, insert_desc a s = h :: t -> forall b, In b t -> key_le (fst b) (fst h) = true.
Proof.
  intros Hs h t Hins b Hb. destruct s as [|b0 s']; simpl in Hins.
  - injection Hins as <- <-. destruct Hb.
  - destruct (key_le (fst a) (fst b0)) eqn:E.
    + injection Hins as <- <-.
      apply (Permutation_in _ (insert_desc_perm a s')) in Hb.
      destruct Hb as [<- | Hb]; [exact E | exact (Hs b0 s' eq_refl b Hb)].
    + injection Hins as <- <-. apply key_le_total in E.
      destruct Hb as [<- | Hb]; [exact E|].
      eapply key_le_trans; [exact (Hs b0 s' eq_refl b Hb) | exact E].
Qed.

Lemma sort_desc_head l h t :
  sort_desc l = h :: t -> forall b, In b l -> key_le (fst b) (fst h) = true.
Proof.
  assert (Hsorted : forall h t, sort_desc l = h :: t ->
            forall b, In b t -> key_le (fst b) (fst h) = true).
  { induction l as [|a l IH]; simpl; [discriminate|]. apply insert_desc_head. exact IH. }
  intros Hl b Hb. apply (Permutation_in _ (Permutation_sym (sort_desc_perm l))) in Hb.
  rewrite Hl in Hb. destruct Hb as [<- | Hb]; [apply key_le_refl | exact (Hsorted h t Hl b Hb)].
Qed.

Lemma in_combine_seq {A} (l : list A) s v i d :
  In (v, i) (combine l (seq s (length l))) ->
  (s <= i < s + length l)%nat /\ nth (i - s) l d = v.
Proof.
  revert s. induction l as [|a l IH]; intros s H; simpl in H; [contradiction|].
  destruct H as [[= <- <-] | H].
  - rewrite Nat.sub_diag. simpl. split; [lia | reflexivity].
  - apply IH in H. destruct H as [Hi Hn]. simpl.
    replace (i - s)%nat with (S (i - S s)) by lia. split; [lia | exact Hn].
Qed.

Lemma combine_seq_in {A} (l : list A) s i d :
  (i < length l)%nat -> In (nth i l d, (s + i)%nat) (combine l (seq s (length l))).
Proof.
  revert s i. induction l as [|a l IH]; intros s i Hi; simpl in *; [lia|].
  destruct i as [|i].
  - left. f_equal. lia.
  - right. replace (s + S i)%nat with (S s + i)%nat by lia. apply IH. lia.
Qed.

Lemma map_snd_combine {A B} (l : list A) (l' : list B) :
  length l = length l' -> map snd (combine l l') = l'.
Proof.
  revert l'. induction l as [|a l IH]; intros [|b l'] H; simpl in *; try discriminate; auto.
  f_equal. apply IH. lia.
Qed.


Lemma sort_indices_nodup l : NoDup (map snd (sort_with_indices l)).
Proof.
  unfold sort_with_indices.
  apply (Permutation_NoDup (Permutation_map snd (Permutation_sym (sort_desc_perm _)))).
  rewrite map_snd_combine by (rewrite length_seq; reflexivity). apply seq_NoDup.
Qed.

Lemma existsb_not_in h ms (fs : list bool) :
  ~ In h ms -> existsb (fun '(k, b) => Nat.eqb k h && b) (combine ms fs) = false.
Proof.
  revert fs. induction ms as [|k ms IH]; intros [|f fs] Hn; simpl; auto.
  rewrite IH by (intros Hc; apply Hn; right; exact Hc).
  destruct (Nat.eqb k h) eqn:E; simpl; [|reflexivity].
  apply Nat.eqb_eq in E. subst. exfalso. apply Hn. left. reflexivity.
Qed.


End SortFacts.

(** * The filter and [sample] with [top_k = 1] *)

Section TopOne.
Context {gen : Type} (K : Torch gen).
Open Scope Q_scope.

Lemma Qlt_bool_iff x y : Qlt_bool x y = true <-> x < y.
Proof.
  unfold Qlt_bool. rewrite negb_true_iff. split.
  - intros H. apply Qnot_le_lt. intros Hc. apply Qle_bool_iff in Hc. congruence.
  - intros H. destruct (Qle_bool y x) eqn:E; [|reflexivity].
    apply Qle_bool_iff in E. exfalso. apply (Qlt_not_le _ _ H E).
Qed.


Lemma nth_map_default {A B} (f : A -> B) l i d d' :
  (i < length l)%nat -> nth i (map f l) d' = f (nth i l d).
Proof.
  intros Hi. rewrite (nth_indep _ d' (f d)) by (rewrite length_map; exact Hi).
  apply map_nth.
Qed.


Lemma max_fin_in l y : max_fin l = Some y -> In (Fin y) l.
Proof.
  induction l as [|a l IH]; simpl; [discriminate|].
  destruct a; try (intros H; right; exact (IH H)).
  destruct (max_fin l) eqn:E; intros H; injection H as <-.
  - destruct (Qle_bool q q0); [right; exact (IH eq_refl) | left; reflexivity].
  - left. reflexivity.
Qed.

Lemma max_fin_some l y : In (Fin y) l -> exists z, max_fin l = Some z.
Proof.
  induction l as [|a l IH]; simpl; [contradiction|]. intros [-> | H].
  - destruct (max_fin l); eexists; reflexivity.
  - destruct (IH H) as [z Hz]. destruct a; try (exists z; exact Hz).
    rewrite Hz. eexists. reflexivity.
Qed.



Section Row.
Variables (ls : list Q) (m : nat).
Hypothesis Hm : (m < length ls)%nat.
Hypothesis Hmax : forall i, (i < length ls)%nat -> i <> m -> nth i ls 0 < nth m ls 0.






Hypothesis Hexp0 : forall x, x == 0 -> exp K x == 1.
Hypothesis Hsupp : forall probs g i g', multinomial K probs g = Some (i, g') ->
  exists w, nth_error probs i = Some (Fin w) /\ 0 < w.
Hypothesis Htot : forall probs g,
  (forall v, In v probs -> exists w, v = Fin w /\ 0 <= w) ->
  (exists w, In (Fin w) probs /\ 0 < w) ->
  exists i g', multinomial K probs g = Some (i, g').



Let es := map (fun c => if Qlt_bool c (nth m ls 0) then 0 else exp K (c - nth m ls 0)) ls.





End Row.
End TopOne.


(** ** The kernels of the test bed *)









Lemma testbed_exp0 x : (x == 0)%Q -> (exp Testbed.torch x == 1)%Q.
Proof.
  intros Hx. cbn [exp Testbed.torch]. unfold Testbed.exp_test.
  destruct (Qle_bool x (-104)) eqn:E1; [apply Qle_bool_iff in E1; lra|].
  assert (E2 : Qle_bool x 0 = true) by (apply Qle_bool_iff; lra).
  rewrite E2, Hx. reflexivity.
Qed.

Lemma testbed_rand_lt1 g0 : (fst (rand Testbed.torch g0) < 1)%Q.
Proof.
  destruct g0 as [|r g0]; cbn [rand Testbed.torch Testbed.rand_frac fst]; [reflexivity|].
  unfold Testbed.frac. pose proof (Qlt_floor r) as H.
  rewrite inject_Z_plus in H. change (inject_Z 1) with 1%Q in H. lra.
Qed.

Lemma causal_lm_causal : causal Testbed.causal_lm.
Proof.
  intros y z k Hk. unfold Testbed.causal_lm.
  rewrite map_app, nth_error_app1 by (rewrite length_map; exact Hk). reflexivity.
Qed.



(** * Runs of the claims' theorems on the test bed *)

Lemma round_progress_and_termination_witness :
  spec_round Testbed.torch Testbed.causal_lm Testbed.causal_lm 1 1 0 0 [1%nat] Testbed.halves
    = inr (([1; 2; 1]%nat, 1%nat), []) /\
  (length [1%nat] + 1 <= length [1; 2; 1]%nat <= length [1%nat] + 1 + 1)%nat.
Proof.
  split; [vm_compute; reflexivity|].
  apply (proj1 (round_progress_and_termination Testbed.torch Testbed.causal_lm
                  Testbed.causal_lm 1 1 0 0) [1%nat] Testbed.halves [1; 2; 1]%nat 1%nat []).
  vm_compute. reflexivity.
Defined.

Lemma speculative_sampling_length_witness :
  speculative_sampling Testbed.torch Testbed.causal_lm Testbed.causal_lm 1 1 0 0
    [1%nat] 1 Testbed.halves = inr ([1; 2; 1]%nat, []) /\
  (length [1%nat] + 1 <= length [1; 2; 1]%nat <= length [1%nat] + 1 + 1)%nat.
Proof.
  split; [vm_compute; reflexivity|].
  apply (speculative_sampling_length Testbed.torch Testbed.causal_lm Testbed.causal_lm
           1 1 0 0 [1%nat] 1 Testbed.halves [1; 2; 1]%nat []).
  vm_compute. reflexivity.
Defined.

Lemma sample_token_zero_raises_witness :
  speculative_sampling Testbed.torch Testbed.causal_lm Testbed.causal_lm 1 1 0 0
    [1%nat] 1 Testbed.halves = inr ([1; 2; 1]%nat, []) /\
  exists d, [1; 2; 1]%nat = [1%nat] ++ d /\ Forall (fun t => t <> 0%nat) d.
Proof.
  split; [vm_compute; reflexivity|].
  apply (proj1 (proj2 (proj2 (sample_token_zero_raises Testbed.torch Testbed.causal_lm
                  Testbed.causal_lm 1 1 0 0)))
           [1%nat] 1 Testbed.halves [1; 2; 1]%nat []).
  vm_compute. reflexivity.
Defined.

Lemma autoregressive_sampling_steps_witness :
  autoregressive_sampling Testbed.torch Testbed.causal_lm 1 0 0 [1%nat] 1 Testbed.halves
    = inr ([1; 2]%nat, [1#2; 1#2]%Q) /\
  exists d, [1; 2]%nat = [1%nat] ++ d /\ length d = 1%nat.
Proof.
  split; [vm_compute; reflexivity|].
  apply (proj2 (autoregressive_sampling_steps Testbed.torch 1 0 0 Testbed.causal_lm [1%nat] 1)
           Testbed.halves [1; 2]%nat [1#2; 1#2]%Q).
  vm_compute. reflexivity.
Defined.

(** [round_next_token] on a round that accepts its drafted token
    ([n = 1]) and on a round that rejects it ([n = 0]). *)
Lemma round_next_token_witness :
  (spec_round Testbed.torch Testbed.causal_lm Testbed.causal_lm 1 1 0 0 [1%nat] Testbed.halves
    = inr (([1; 2; 1]%nat, 1%nat), []) /\
  exists x ql g1 g2 t,
    draft_loop Testbed.torch Testbed.causal_lm 1 0 0 1 [1%nat] None Testbed.halves
      = inr ((x, Some ql), g1) /\
    accept_scan Testbed.torch 1 (map (norm_logits Testbed.torch) (Testbed.causal_lm x))
      (map (norm_logits Testbed.torch) ql) x (length [1%nat]) 0 1 g1 = inr (1%nat, g2) /\
    [1; 2; 1]%nat = firstn (1 + 1) x ++ [t] /\
    ((1 < length [1%nat] + 1 - 1)%nat ->
       exists d,
         vsub (nth 1 (map (norm_logits Testbed.torch) (Testbed.causal_lm x)) [])
              (nth 1 (map (norm_logits Testbed.torch) ql) []) = Some d /\
         sample Testbed.torch (max_fn d) 1 0 0 g2 = inr (t, [])) /\
    (~ (1 < length [1%nat] + 1 - 1)%nat ->
       sample Testbed.torch (last (map (norm_logits Testbed.torch) (Testbed.causal_lm x)) [])
         1 0 0 g2 = inr (t, []))) /\
  (spec_round Testbed.torch Testbed.causal_lm Testbed.underflow_lm 1 1 0 0 [1%nat]
    [3#4; 19#20; 3#4]%Q = inr (([1; 2]%nat, 0%nat), []) /\
  exists x ql g1 g2 t,
    draft_loop Testbed.torch Testbed.causal_lm 1 0 0 1 [1%nat] None [3#4; 19#20; 3#4]%Q
      = inr ((x, Some ql), g1) /\
    accept_scan Testbed.torch 1 (map (norm_logits Testbed.torch) (Testbed.underflow_lm x))
      (map (norm_logits Testbed.torch) ql) x (length [1%nat]) 0 1 g1 = inr (0%nat, g2) /\
    [1; 2]%nat = firstn (0 + 1) x ++ [t] /\
    ((0 < length [1%nat] + 1 - 1)%nat ->
       exists d,
         vsub (nth 0 (map (norm_logits Testbed.torch) (Testbed.underflow_lm x)) [])
              (nth 0 (map (norm_logits Testbed.torch) ql) []) = Some d /\
         sample Testbed.torch (max_fn d) 1 0 0 g2 = inr (t, [])) /\
    (~ (0 < length [1%nat] + 1 - 1)%nat ->
       sample Testbed.torch (last (map (norm_logits Testbed.torch) (Testbed.underflow_lm x)) [])
         1 0 0 g2 = inr (t, []))).
Proof.
  split; split; [vm_compute; reflexivity| | vm_compute; reflexivity|].
  - apply (round_next_token Testbed.torch Testbed.causal_lm Testbed.causal_lm 1 1 0 0
             [1%nat] Testbed.halves [1; 2; 1]%nat 1%nat []).
    vm_compute. reflexivity.
  - apply (round_next_token Testbed.torch Testbed.causal_lm Testbed.underflow_lm 1 1 0 0
             [1%nat] [3#4; 19#20; 3#4]%Q [1; 2]%nat 0%nat []).
    vm_compute. reflexivity.
Defined.

Lemma round_acceptance_boundary_witness :
  spec_round Testbed.torch Testbed.causal_lm Testbed.causal_lm 1 1 0 0 [1%nat] Testbed.halves
    = inr (([1; 2; 1]%nat, 1%nat), []) /\
  exists x ql g1 c t,
    draft_loop Testbed.torch Testbed.causal_lm 1 0 0 1 [1%nat] None Testbed.halves
      = inr ((x, Some ql), g1) /\
    boundary_from code_accepts (map (norm_logits Testbed.torch) (Testbed.causal_lm x))
      (map (norm_logits Testbed.torch) ql) x (length [1%nat]) 1 0
      (fst (draws Testbed.torch 1 g1)) 1 = Some (1%nat, c) /\
    next_token Testbed.torch 1 1 0 0 (map (norm_logits Testbed.torch) (Testbed.causal_lm x))
      (map (norm_logits Testbed.torch) ql) (length [1%nat]) 1 (snd (draws Testbed.torch c g1))
      = inr (t, []) /\
    [1; 2; 1]%nat = firstn (1 + 1) x ++ [t] /\
    length (firstn (1 + 1) x) = (1 + 1)%nat.
Proof.
  split; [vm_compute; reflexivity|].
  apply (round_acceptance_boundary Testbed.torch Testbed.causal_lm Testbed.causal_lm 1 1 0 0
           [1%nat] Testbed.halves [1; 2; 1]%nat 1%nat []).
  vm_compute. reflexivity.
Defined.

Lemma identical_causal_oracles_accept_all_witness :
  spec_round Testbed.torch Testbed.causal_lm Testbed.causal_lm 1 1 0 0 [1%nat] Testbed.halves
    = inr (([1; 2; 1]%nat, 1%nat), []) /\
  1%nat = (length [1%nat] + 1 - 1)%nat.
Proof.
  split; [vm_compute; reflexivity|].
  apply (identical_causal_oracles_accept_all Testbed.torch 1 1 0 0 Testbed.causal_lm
           [1%nat] Testbed.halves [1; 2; 1]%nat 1%nat []).
  - exact causal_lm_causal.
  - exact testbed_rand_lt1.
  - discriminate.
  - vm_compute. reflexivity.
Defined.

Lemma zero_draft_probability_accepted_witness :
  ratio_at (map (norm_logits Testbed.torch) (Testbed.flat_lm [1; 1]%nat))
    (map (norm_logits Testbed.torch) [[0; -200; 0]%Q]) [1; 1]%nat 1 0 = Some PInf /\
  accept_scan Testbed.torch 1 (map (norm_logits Testbed.torch) (Testbed.flat_lm [1; 1]%nat))
    (map (norm_logits Testbed.torch) [[0; -200; 0]%Q]) [1; 1]%nat 1 0 1 Testbed.halves
  = accept_scan Testbed.torch 1 (map (norm_logits Testbed.torch) (Testbed.flat_lm [1; 1]%nat))
      (map (norm_logits Testbed.torch) [[0; -200; 0]%Q]) [1; 1]%nat 1 1 0 [1#2; 1#2]%Q.
Proof.
  split; [vm_compute; reflexivity|].
  apply (proj2 zero_draft_probability_accepted (list Q) Testbed.torch 1
           (map (norm_logits Testbed.torch) (Testbed.flat_lm [1; 1]%nat))
           (map (norm_logits Testbed.torch) [[0; -200; 0]%Q]) [1; 1]%nat 1 0 0
           Testbed.halves (1#2)%Q [1#2; 1#2]%Q (1#3)%Q 0%Q).
  - vm_compute. reflexivity.
  - vm_compute. reflexivity.
  - reflexivity.
  - apply Qle_bool_iff. reflexivity.
Defined.

Lemma residual_distribution_valid_witness :
  vsub (map Fin [1; 0]%Q) (map Fin [0; 1]%Q) = Some [Fin 1; Fin (-1)] /\
  exists ws, max_fn [Fin 1; Fin (-1)] = map Fin ws /\ Forall (Qle 0) ws /\
             (fold_right Qplus 0%Q ws == 1)%Q.
Proof.
  split; [vm_compute; reflexivity|].
  apply (residual_distribution_valid [1; 0]%Q [0; 1]%Q [Fin 1; Fin (-1)]).
  - reflexivity.
  - repeat constructor; apply Qle_bool_iff; reflexivity.
  - repeat constructor; apply Qle_bool_iff; reflexivity.
  - reflexivity.
  - reflexivity.
  - exists 0%nat. apply Qeq_bool_neq. reflexivity.
  - vm_compute. reflexivity.
Defined.


(** * Counterexamples *)

(** C1: both oracles give token 1 a float32 probability of 0; the drafted
    token 1 has ratio [0/0 = NaN]. The code keeps it ([n = 1]), while the
    rule [r <= p/q] refuses it and puts the boundary at [n = 0]. *)
Lemma round_acceptance_nan_counterexample :
  spec_round Testbed.torch Testbed.underflow_lm Testbed.underflow_lm 1 1000 0 0 [1%nat]
    Testbed.halves = inr (([1; 1; 1]%nat, 1%nat), []) /\
  draft_loop Testbed.torch Testbed.underflow_lm 1000 0 0 1 [1%nat] None Testbed.halves
    = inr (([1; 1]%nat, Some [[0; -200; 0]%Q]), [1#2; 1#2]%Q) /\
  ratio_at (map (norm_logits Testbed.torch) (Testbed.underflow_lm [1; 1]%nat))
    (map (norm_logits Testbed.torch) [[0; -200; 0]%Q]) [1; 1]%nat 1 0 = Some NaN /\
  boundary_from spec_accepts (map (norm_logits Testbed.torch) (Testbed.underflow_lm [1; 1]%nat))
    (map (norm_logits Testbed.torch) [[0; -200; 0]%Q]) [1; 1]%nat 1 1 0
    (fst (draws Testbed.torch 1 [1#2; 1#2]%Q)) 1 = Some (0%nat, 1%nat).
Proof. vm_compute. repeat split. Qed.

(** C3: with the same oracle as drafter and verifier and the same stream,
    [speculative_sampling] returns three tokens and [autoregressive_sampling]
    two. *)
Lemma speculative_vs_autoregressive_counterexample :
  speculative_sampling Testbed.torch Testbed.causal_lm Testbed.causal_lm 1 1 0 0
    [1%nat] 1 Testbed.halves = inr ([1; 2; 1]%nat, []) /\
  autoregressive_sampling Testbed.torch Testbed.causal_lm 1 0 0 [1%nat] 1 Testbed.halves
    = inr ([1; 2]%nat, [1#2; 1#2]%Q).
Proof. vm_compute. split; reflexivity. Qed.

(** C4: the drafter gives token 1 a probability of 0; the ratio is +inf and
    the round keeps the token ([n = prefix_len + gamma - 1 = 1]). *)
Lemma zero_draft_probability_counterexample :
  spec_round Testbed.torch Testbed.underflow_lm Testbed.flat_lm 1 1000 0 0 [1%nat]
    Testbed.halves = inr (([1; 1; 1]%nat, 1%nat), []) /\
  (exists w, nth_error (norm_logits Testbed.torch [0; -200; 0]%Q) 1 = Some (Fin w) /\ (w == 0)%Q) /\
  ratio_at (map (norm_logits Testbed.torch) (Testbed.flat_lm [1; 1]%nat))
    (map (norm_logits Testbed.torch) [[0; -200; 0]%Q]) [1; 1]%nat 1 0 = Some PInf.
Proof.
  split; [vm_compute; reflexivity|]. split; [|vm_compute; reflexivity].
  exists (0#2)%Q. split; [vm_compute; reflexivity | reflexivity].
Qed.

(** C2: a round of the underflowing oracles accepts its drafted token
    ([n = prefix_len + gamma - 1 = 1]) and appends token 1, whose target
    probability at the last position is 0: [sample] re-applies the softmax
    to the probability row [[1/2; 0; 1/2]], which gives token 1 a positive
    weight. *)
Lemma bonus_token_zero_target_probability_counterexample :
  spec_round Testbed.torch Testbed.underflow_lm Testbed.underflow_lm 1 1 0 0 [1%nat]
    [3#4; 1#2; 1#2]%Q = inr (([1; 2; 1]%nat, 1%nat), []) /\
  (1 = length [1%nat] + 1 - 1)%nat /\
  nth_error (last (map (norm_logits Testbed.torch) (Testbed.underflow_lm [1; 2]%nat)) []) 1
    = Some (Fin (0#2)).
Proof. vm_compute. repeat split. Qed.

(** C5: for [p = q] the residual [max_fn (p - q)] is NaN everywhere. *)
Lemma residual_equal_distributions_counterexample :
  vsub (map Fin [1#2; 1#2]%Q) (map Fin [1#2; 1#2]%Q) = Some [Fin (0#4); Fin (0#4)] /\
  max_fn [Fin (0#4); Fin (0#4)] = [NaN; NaN].
Proof. vm_compute. split; reflexivity. Qed.


(** * The filter: its two stages *)

Section FilterStages.
Context {gen : Type} (K : Torch gen).

(** The filter is its top-k stage followed by its top-p stage. *)
Lemma filter_compose l k p :
  top_k_top_p_filter K l k p = top_k_top_p_filter K (top_k_top_p_filter K l k 0) 0 p.
Proof. reflexivity. Qed.

Lemma filter_topk_stage l k :
  top_k_top_p_filter K l k 0 =
  if Nat.ltb 0 k then
    map (fun v => if ext_lt v (nth (Nat.min k (length l) - 1)
                                 (map fst (sort_with_indices l)) NaN) then NInf else v) l
  else l.
Proof. reflexivity. Qed.

Lemma filter_topp_stage l p :
  top_k_top_p_filter K l 0 p =
  if Qlt_bool 0 p then
    map (fun '(v, i) =>
           if existsb (fun '(k, b) => Nat.eqb k i && b)
                (combine (map snd (sort_with_indices l))
                   (match map (fun c => ext_gt c (Fin p))
                              (cumsum (softmax K (map fst (sort_with_indices l)))) with
                    | [] => []
                    | _ :: _ => false :: removelast (map (fun c => ext_gt c (Fin p))
                              (cumsum (softmax K (map fst (sort_with_indices l)))))
                    end))
           then NInf else v)
        (combine l (seq 0 (length l)))
  else l.
Proof. reflexivity. Qed.

End FilterStages.

Lemma nth_error_map_combine_seq {A B} (f : A * nat -> B) l s i :
  nth_error (map f (combine l (seq s (length l)))) i =
  option_map (fun v => f (v, (s + i)%nat)) (nth_error l i).
Proof.
  revert s i. induction l as [|a l IH]; intros s [|i]; simpl; auto.
  - rewrite Nat.add_0_r. reflexivity.
  - rewrite IH. replace (S s + i)%nat with (s + S i)%nat by lia. reflexivity.
Qed.

Lemma head_not_removed (l : list ext) v0 h rest (filter : list bool) :
  sort_with_indices l = (v0, h) :: rest ->
  existsb (fun '(k, b) => Nat.eqb k h && b)
    (combine (map snd (sort_with_indices l))
       (match filter with [] => [] | _ :: _ => false :: removelast filter end)) = false.
Proof.
  intros Hs. pose proof (sort_indices_nodup l) as Hnd. rewrite Hs in *. simpl in *.
  inversion Hnd as [|? ? Hnin _]. subst.
  destruct filter as [|f fs]; simpl; [reflexivity|].
  rewrite Nat.eqb_refl. simpl. apply existsb_not_in. exact Hnin.
Qed.

Lemma sort_indices_length l : length (sort_with_indices l) = length l.
Proof.
  unfold sort_with_indices. rewrite (Permutation_length (sort_desc_perm _)).
  rewrite length_combine, length_seq. apply Nat.min_id.
Qed.

Lemma sort_indices_in l v i :
  In (v, i) (sort_with_indices l) -> (i < length l)%nat /\ nth i l NaN = v.
Proof.
  intros H. apply (Permutation_in _ (sort_desc_perm _)) in H.
  apply (in_combine_seq _ _ _ _ NaN) in H. rewrite Nat.sub_0_r in H.
  destruct H as [Hi Hv]. split; [lia | exact Hv].
Qed.


Section FilterMasks.
Context {gen : Type} (K : Torch gen).

Lemma topk_stage_masks l k :
  length (top_k_top_p_filter K l k 0) = length l /\
  forall i v, nth_error (top_k_top_p_filter K l k 0) i = Some v -> v = NInf \/ nth_error l i = Some v.
Proof.
  rewrite filter_topk_stage. destruct (Nat.ltb 0 k); [|split; auto].
  split; [apply length_map|]. intros i v H. rewrite nth_error_map in H.
  destruct (nth_error l i) as [u|]; [|discriminate]. simpl in H. injection H as <-.
  destruct (ext_lt u _); auto.
Qed.

Lemma topp_stage_masks l p :
  length (top_k_top_p_filter K l 0 p) = length l /\
  forall i v, nth_error (top_k_top_p_filter K l 0 p) i = Some v -> v = NInf \/ nth_error l i = Some v.
Proof.
  rewrite filter_topp_stage. destruct (Qlt_bool 0 p); [|split; auto].
  split; [rewrite length_map, length_combine, length_seq; apply Nat.min_id|].
  intros i v H. rewrite nth_error_map_combine_seq in H.
  destruct (nth_error l i) as [u|]; [|discriminate]. simpl in H. injection H as <-.
  destruct (existsb _ _); auto.
Qed.

(** The head of the sort of a non-empty row, a maximal entry in the order
    of the sort, goes through the top-p stage unchanged. *)
Lemma topp_keeps_head l p : l <> [] ->
  exists h, (h < length l)%nat /\
    nth_error (top_k_top_p_filter K l 0 p) h = nth_error l h /\
    forall i, (i < length l)%nat -> key_le (nth i l NaN) (nth h l NaN) = true.
Proof.
  intros Hne. destruct (sort_with_indices l) as [|[v0 h] rest] eqn:Hs.
  - pose proof (sort_indices_length l) as Hl. rewrite Hs in Hl.
    destruct l; [contradiction | discriminate].
  - destruct (sort_indices_in l v0 h) as [Hh Hv]; [rewrite Hs; left; reflexivity|].
    exists h. split; [exact Hh|]. split.
    + rewrite filter_topp_stage. destruct (Qlt_bool 0 p); [|reflexivity].
      rewrite nth_error_map_combine_seq. change (0 + h)%nat with h.
      destruct (nth_error l h); [|reflexivity]. simpl.
      rewrite (head_not_removed l v0 h rest _ Hs). reflexivity.
    + intros i Hi. rewrite Hv.
      exact (sort_desc_head _ _ _ Hs (nth i l NaN, i) (combine_seq_in l 0 i NaN Hi)).
Qed.

Lemma argmax_exists (ls : list Q) : ls <> [] ->
  exists m, (m < length ls)%nat /\ forall j, (j < length ls)%nat -> (nth j ls 0 <= nth m ls 0)%Q.
Proof.
  induction ls as [|a ls IH]; intros Hne; [exfalso; apply Hne; reflexivity|].
  destruct ls as [|b ls'].
  - exists 0%nat. split; [simpl; lia|]. intros [|j] Hj; simpl in *; [apply Qle_refl | lia].
  - destruct IH as [m [Hm Hmax]]; [discriminate|].
    destruct (Qlt_le_dec a (nth m (b :: ls') 0%Q)) as [Hlt | Hle].
    + exists (S m). split; [simpl in *; lia|]. intros [|j] Hj; simpl nth.
      * apply Qlt_le_weak. exact Hlt.
      * apply Hmax. simpl in *. lia.
    + exists 0%nat. split; [simpl; lia|]. intros [|j] Hj; simpl nth; [apply Qle_refl|].
      eapply Qle_trans; [apply Hmax; simpl in *; lia | exact Hle].
Qed.

End FilterMasks.

(** ** The filter only masks, and never masks a maximum *)

Lemma filter_masks {gen} (K : Torch gen) l k p :
  length (top_k_top_p_filter K l k p) = length l /\
  forall i v, nth_error (top_k_top_p_filter K l k p) i = Some v ->
    v = NInf \/ nth_error l i = Some v.
Proof.
  rewrite filter_compose.
  destruct (topk_stage_masks K l k) as [Hl1 H1].
  destruct (topp_stage_masks K (top_k_top_p_filter K l k 0) p) as [Hl2 H2].
  split; [congruence|]. intros i v H. apply H2 in H. destruct H as [-> | H]; [auto|].
  exact (H1 _ _ H).
Qed.

Lemma filter_keeps_argmax {gen} (K : Torch gen) (ls : list Q) k p :
  ls <> [] ->
  exists i, (i < length ls)%nat /\
    nth_error (top_k_top_p_filter K (map Fin ls) k p) i = Some (Fin (nth i ls 0%Q)) /\
    forall j, (j < length ls)%nat -> (nth j ls 0 <= nth i ls 0)%Q.
Proof.
  intros Hne. destruct (argmax_exists ls Hne) as [m [Hm Hmax]].
  set (l1 := top_k_top_p_filter K (map Fin ls) k 0).
  destruct (topk_stage_masks K (map Fin ls) k) as [Hl1 H1]. fold l1 in Hl1, H1.
  rewrite length_map in Hl1.
  (* the top-k stage keeps every maximal entry *)
  assert (Hkeep : nth_error l1 m = Some (Fin (nth m ls 0%Q))).
  { unfold l1. rewrite filter_topk_stage. destruct (Nat.ltb 0 k) eqn:Ek.
    - apply Nat.ltb_lt in Ek. rewrite !nth_error_map, (nth_error_nth' ls 0%Q) by exact Hm.
      simpl. set (kth := nth _ _ NaN).
      assert (Hin : In kth (map fst (sort_with_indices (map Fin ls)))).
      { apply nth_In. rewrite !length_map, sort_indices_length, length_map. lia. }
      apply in_map_iff in Hin. destruct Hin as [[v i] [Hv Hin]]. simpl in Hv. subst v.
      apply sort_indices_in in Hin. destruct Hin as [Hi Hv]. rewrite length_map in Hi.
      rewrite <- Hv, (nth_map_default _ _ _ 0%Q) by exact Hi. simpl.
      destruct (Qlt_bool (nth m ls 0%Q) (nth i ls 0%Q)) eqn:E; [|reflexivity].
      apply Qlt_bool_iff in E. exfalso. exact (Qlt_not_le _ _ E (Hmax i Hi)).
    - rewrite !nth_error_map, (nth_error_nth' ls 0%Q) by exact Hm. reflexivity. }
  destruct (topp_keeps_head K l1 p) as [h [Hh [Hout Hhmax]]].
  { intros E. rewrite E in Hl1. destruct ls; [contradiction | discriminate]. }
  rewrite Hl1 in Hh.
  pose proof (Hhmax m ltac:(lia)) as Hle.
  rewrite (nth_error_nth _ _ NaN Hkeep) in Hle.
  destruct (H1 h (nth h l1 NaN)) as [Hn | Hv]; [apply nth_error_nth'; lia | |].
  - rewrite Hn in Hle. discriminate.
  - rewrite nth_error_map, (nth_error_nth' _ 0%Q) in Hv by exact Hh. simpl in Hv.
    injection Hv as Hv. rewrite <- Hv in Hle. simpl in Hle. apply Qle_bool_iff in Hle.
    exists h. split; [exact Hh|]. split.
    + rewrite filter_compose. fold l1. rewrite Hout, (nth_error_nth' _ NaN) by lia.
      rewrite <- Hv. reflexivity.
    + intros j Hj. eapply Qle_trans; [apply Hmax; exact Hj | exact Hle].
Qed.

(** ** The sort is sorted *)

Lemma insert_desc_sorted a s :
  StronglySorted (fun x y : ext * nat => key_le (fst y) (fst x) = true) s ->
  StronglySorted (fun x y : ext * nat => key_le (fst y) (fst x) = true) (insert_desc a s).
Proof.
  induction s as [|b s IH]; intros Hs; simpl; [repeat constructor|].
  inversion Hs as [|? ? Hs' Hall]; subst. rewrite Forall_forall in Hall.
  destruct (key_le (fst a) (fst b)) eqn:E.
  - constructor; [exact (IH Hs')|]. apply Forall_forall. intros c Hc.
    apply (Permutation_in _ (insert_desc_perm a s)) in Hc.
    destruct Hc as [<- | Hc]; [exact E | exact (Hall c Hc)].
  - apply key_le_total in E. constructor; [exact Hs|]. constructor; [exact E|].
    apply Forall_forall. intros c Hc. eapply key_le_trans; [exact (Hall c Hc) | exact E].
Qed.

Lemma sort_desc_sorted l :
  StronglySorted (fun x y : ext * nat => key_le (fst y) (fst x) = true) (sort_desc l).
Proof.
  induction l as [|a l IH]; simpl; [constructor|]. apply insert_desc_sorted. exact IH.
Qed.

Lemma SSorted_nth {A} (R : A -> A -> Prop) l d :
  StronglySorted R l -> forall i j, (i < j < length l)%nat -> R (nth i l d) (nth j l d).
Proof.
  induction 1 as [|a l Hs IH Hall]; intros i j Hij; simpl in *; [lia|].
  destruct i as [|i], j as [|j]; try lia.
  - rewrite Forall_forall in Hall. apply Hall. apply nth_In. lia.
  - apply IH. lia.
Qed.

(** ** X3 *)

(** X3: the top-k stage of [top_k_top_p_filter] with [top_k = k > 0] on a
    row of finite logits keeps at least [min k vocab] entries unchanged,
    masks an entry only when it is strictly below every kept entry, and
    with [k >= vocab] leaves the row unchanged. (Ties at the k-th largest
    value are all kept.) *)
Theorem topk_keeps_highest {gen} (K : Torch gen) (ls : list Q) k :
  (0 < k)%nat ->
  (exists S, NoDup S /\ length S = Nat.min k (length ls) /\
     forall i, In i S -> (i < length ls)%nat /\
       nth_error (top_k_top_p_filter K (map Fin ls) k 0) i = Some (Fin (nth i ls 0%Q))) /\
  (forall i j, nth_error (top_k_top_p_filter K (map Fin ls) k 0) i = Some NInf ->
     nth_error (top_k_top_p_filter K (map Fin ls) k 0) j = Some (Fin (nth j ls 0%Q)) ->
     (nth i ls 0 < nth j ls 0)%Q) /\
  ((length ls <= k)%nat -> top_k_top_p_filter K (map Fin ls) k 0 = map Fin ls).
Proof.
  intros Hk.
  destruct (topk_stage_masks K (map Fin ls) k) as [Hlen _]. rewrite length_map in Hlen.
  set (out := top_k_top_p_filter K (map Fin ls) k 0) in *.
  set (S0 := sort_with_indices (map Fin ls)).
  assert (Hpair : forall v i, In (v, i) S0 -> (i < length ls)%nat /\ v = Fin (nth i ls 0%Q)).
  { intros v i H. apply sort_indices_in in H. destruct H as [Hi Hv]. rewrite length_map in Hi.
    rewrite (nth_map_default _ _ _ 0%Q) in Hv by exact Hi. split; [exact Hi | symmetry; exact Hv]. }
  assert (HS0 : length S0 = length ls)
    by (unfold S0; rewrite sort_indices_length, length_map; reflexivity).
  assert (Hout : forall i, nth_error out i =
            option_map (fun v => if ext_lt v (nth (Nat.min k (length (map Fin ls)) - 1)
                                                  (map fst S0) NaN) then NInf else v)
                       (nth_error (map Fin ls) i)).
  { intros i. unfold out. rewrite filter_topk_stage, (proj2 (Nat.ltb_lt 0 k) Hk). apply nth_error_map. }
  rewrite length_map in Hout.
  destruct (Nat.eq_dec (length ls) 0) as [H0 | Hne].
  - destruct ls; [|discriminate]. destruct out as [|o out']; [|discriminate].
    split; [exists []; split; [constructor|]; split; [rewrite Nat.min_0_r; reflexivity | intros i []]|].
    split; [intros i j H; destruct i; discriminate | reflexivity].
  - set (k' := Nat.min k (length ls)) in *.
    assert (Hk' : (1 <= k' <= length ls)%nat) by (unfold k'; lia).
    destruct (nth (k' - 1) S0 (NaN, 0%nat)) as [vk ik] eqn:Ek.
    assert (Hin : In (vk, ik) S0) by (rewrite <- Ek; apply nth_In; lia).
    destruct (Hpair _ _ Hin) as [Hik Hvk].
    set (c := nth ik ls 0%Q) in *.
    assert (Hkth : nth (k' - 1) (map fst S0) NaN = Fin c).
    { change NaN with (fst (NaN, 0%nat)). rewrite map_nth, Ek. exact Hvk. }
    rewrite Hkth in Hout.
    assert (Hkept : forall i, (i < length ls)%nat -> (c <= nth i ls 0)%Q ->
                      nth_error out i = Some (Fin (nth i ls 0%Q))).
    { intros i Hi Hc. rewrite Hout, nth_error_map, (nth_error_nth' ls 0%Q) by exact Hi. simpl.
      destruct (Qlt_bool (nth i ls 0%Q) c) eqn:E; [|reflexivity].
      apply Qlt_bool_iff in E. exfalso. exact (Qlt_not_le _ _ E Hc). }
    assert (Hclass : forall i v, nth_error out i = Some v ->
              (v = NInf /\ (nth i ls 0 < c)%Q) \/ (v = Fin (nth i ls 0%Q) /\ (c <= nth i ls 0)%Q)).
    { intros i v H. rewrite Hout, nth_error_map in H.
      destruct (nth_error ls i) as [x|] eqn:Ex; [|discriminate].
      apply (nth_error_nth _ _ 0%Q) in Ex. simpl in H. injection H as <-. rewrite Ex.
      destruct (Qlt_bool x c) eqn:E.
      - left. split; [reflexivity|]. apply Qlt_bool_iff. exact E.
      - right. split; [reflexivity|]. apply Qnot_lt_le. intros Hc. apply Qlt_bool_iff in Hc. congruence. }
    assert (Hsorted : StronglySorted (fun x y : ext * nat => key_le (fst y) (fst x) = true) S0)
      by apply sort_desc_sorted.
    assert (HS : forall i, In i (firstn k' (map snd S0)) -> (i < length ls)%nat /\ (c <= nth i ls 0)%Q).
    { intros i Hi. apply In_nth_error in Hi. destruct Hi as [j Hj]. rewrite nth_error_firstn in Hj.
      destruct (Nat.ltb j k') eqn:Ej; [|discriminate]. apply Nat.ltb_lt in Ej.
      rewrite nth_error_map in Hj. destruct (nth_error S0 j) as [[v i']|] eqn:Hj'; [|discriminate].
      simpl in Hj. injection Hj as ->.
      destruct (Hpair v i (nth_error_In _ _ Hj')) as [Hi Hv]. split; [exact Hi|].
      assert (Hle : key_le (Fin c) v = true).
      { destruct (Nat.eq_dec j (k' - 1)) as [-> | Hne'].
        - rewrite (nth_error_nth _ _ (NaN, 0%nat) Hj') in Ek. injection Ek as -> ->.
          rewrite Hvk. apply key_le_refl.
        - pose proof (SSorted_nth _ _ (NaN, 0%nat) Hsorted j (k' - 1) ltac:(lia)) as Hs.
          simpl in Hs. rewrite Ek, (nth_error_nth _ _ (NaN, 0%nat) Hj') in Hs.
          simpl in Hs. rewrite <- Hvk. exact Hs. }
      rewrite Hv in Hle. simpl in Hle. apply Qle_bool_iff. exact Hle. }
    assert (Hnd : NoDup (firstn k' (map snd S0))).
    { pose proof (sort_indices_nodup (map Fin ls)) as Hnd. fold S0 in Hnd.
      rewrite <- (firstn_skipn k' (map snd S0)) in Hnd. exact (NoDup_app_remove_r _ _ Hnd). }
    assert (HSlen : length (firstn k' (map snd S0)) = k')
      by (rewrite length_firstn, length_map, HS0; lia).
    split; [|split].
    + exists (firstn k' (map snd S0)). split; [exact Hnd|]. split; [exact HSlen|].
      intros i Hi. destruct (HS i Hi) as [Hi' Hc]. split; [exact Hi' | exact (Hkept i Hi' Hc)].
    + intros i j Hi Hj. apply Hclass in Hi, Hj.
      destruct Hi as [[_ Hi] | [Hi _]]; [|discriminate].
      destruct Hj as [[Hj _] | [_ Hj]]; [discriminate|].
      exact (Qlt_le_trans _ _ _ Hi Hj).
    + intros Hl. apply nth_error_ext. intros i.
      destruct (Nat.lt_ge_cases i (length ls)) as [Hi | Hi].
      * assert (HinS : In i (firstn k' (map snd S0))).
        { apply (NoDup_length_incl (l' := seq 0 (length ls)) Hnd); [rewrite length_seq, HSlen; unfold k'; lia | |].
          - intros x Hx. apply in_seq. destruct (HS x Hx). lia.
          - apply in_seq. lia. }
        rewrite (Hkept i Hi (proj2 (HS i HinS))), nth_error_map, (nth_error_nth' ls 0%Q) by exact Hi.
        reflexivity.
      * rewrite (proj2 (nth_error_None out i)) by lia.
        rewrite (proj2 (nth_error_None (map Fin ls) i)) by (rewrite length_map; lia). reflexivity.
Qed.

(** ** [softmax] on a row of finite and -inf entries *)



Section SoftmaxFacts.
Context {gen : Type} (K : Torch gen).
Hypothesis Hexp0 : forall x, (x == 0)%Q -> (exp K x == 1)%Q.
Hypothesis Hexpnn : forall x, (0 <= exp K x)%Q.

Lemma softmax_valid (l : list ext) :
  (forall v, In v l -> v = NInf \/ exists x, v = Fin x) -> (exists x, In (Fin x) l) ->
  exists ws, softmax K l = map Fin ws /\ Forall (Qle 0) ws /\
    (fold_right Qplus 0%Q ws == 1)%Q /\
    forall i, nth_error l i = Some NInf -> exists w, nth_error ws i = Some w /\ (w == 0)%Q.
Proof.
  intros Hall [x Hx].
  assert (Hne : existsb is_nan_or_pinf l = false).
  { destruct (existsb is_nan_or_pinf l) eqn:E; [|reflexivity].
    apply existsb_exists in E. destruct E as [v [Hv Hp]].
    destruct (Hall v Hv) as [-> | [y ->]]; discriminate. }
  destruct (max_fin_some l x Hx) as [c Hc]. pose proof (max_fin_in _ _ Hc) as Hcin.
  unfold softmax. rewrite Hne, Hc. cbv zeta.
  set (es := map (fun v => match v with Fin y => exp K (y - c) | _ => 0%Q end) l).
  set (s := fold_right Qplus 0%Q es).
  assert (Hes : Forall (Qle 0) es).
  { apply Forall_forall. intros e He. unfold es in He. apply in_map_iff in He.
    destruct He as [v [<- _]]. destruct v; [apply Hexpnn | apply Qle_refl ..]. }
  assert (Hs1 : (1 <= s)%Q).
  { assert (Hin : In (exp K (c - c)) es) by (exact (in_map (fun v => match v with Fin y => exp K (y - c) | _ => 0%Q end) l (Fin c) Hcin)).
    pose proof (elem_le_sum es _ Hes Hin) as Hle. fold s in Hle.
    rewrite (Hexp0 (c - c)) in Hle by (unfold Qminus; apply Qplus_opp_r). exact Hle. }
  assert (Hsne : ~ (s == 0)%Q) by (intros E; rewrite E in Hs1; lra).
  assert (Hs0 : Qeq_bool s 0 = false).
  { destruct (Qeq_bool s 0) eqn:E; [|reflexivity]. apply Qeq_bool_iff in E. contradiction. }
  exists (map (fun e => (e / s)%Q) es). split; [|split; [|split]].
  - rewrite map_map. apply map_ext_in. intros e He. apply ext_div_unit; [lra|]. split.
    + rewrite Forall_forall in Hes. exact (Hes e He).
    + exact (elem_le_sum es e Hes He).
  - apply Forall_div_nonneg; [lra | exact Hes].
  - rewrite (sumQ_div es s Hsne). unfold Qdiv. apply Qmult_inv_r. exact Hsne.
  - intros i Hi. unfold es. rewrite !nth_error_map, Hi. simpl.
    eexists. split; [reflexivity|]. unfold Qdiv. apply Qmult_0_l.
Qed.

End SoftmaxFacts.

(** ** X4 *)

(** X4: with an exponential that is non-negative and gives 1 at 0,
    [norm_logits] of a non-empty row of finite logits is a probability
    vector: as long as the row, finite, non-negative, summing to 1. *)
Theorem norm_logits_distribution {gen} (K : Torch gen)
  (Hexp0 : forall x, (x == 0)%Q -> (exp K x == 1)%Q)
  (Hexpnn : forall x, (0 <= exp K x)%Q) (row : list Q) :
  row <> [] ->
  exists ws, norm_logits K row = map Fin ws /\ length ws = length row /\
    Forall (Qle 0) ws /\ (fold_right Qplus 0%Q ws == 1)%Q.
Proof.
  intros Hne. destruct (softmax_valid K Hexp0 Hexpnn (map Fin row)) as [ws [Hs [Hnn [Hsum _]]]].
  - intros v Hv. apply in_map_iff in Hv. destruct Hv as [x [<- _]]. eauto.
  - destruct row as [|x row]; [contradiction|]. exists x. left. reflexivity.
  - exists ws. unfold norm_logits. split; [exact Hs|]. split; [|auto].
    assert (Hl : length (softmax K (map Fin row)) = length (map Fin ws)) by (rewrite Hs; reflexivity).
    rewrite !length_map in Hl. unfold softmax in Hl.
    destruct (existsb _ _); [rewrite !length_map in Hl; lia|].
    destruct (max_fin _); rewrite !length_map in Hl; lia.
Qed.


(** ** X5 *)


(** ** X1 *)

(** X1: [top_k_top_p_filter] returns a row as long as its input, each entry
    of which is the input's entry or -inf: it only masks. *)
Theorem filter_only_masks {gen} (K : Torch gen) l k p :
  length (top_k_top_p_filter K l k p) = length l /\
  forall i v, nth_error (top_k_top_p_filter K l k p) i = Some v ->
    v = NInf \/ nth_error l i = Some v.
Proof. apply filter_masks. Qed.

(** ** X2 *)

(** X2: for a non-empty row of finite logits and any [top_k] and [top_p],
    some entry holding the row's maximum goes through [top_k_top_p_filter]
    unchanged: the filter never masks the whole row. *)
Theorem filter_keeps_max {gen} (K : Torch gen) (ls : list Q) k p :
  ls <> [] ->
  exists i, (i < length ls)%nat /\
    nth_error (top_k_top_p_filter K (map Fin ls) k p) i = Some (Fin (nth i ls 0%Q)) /\
    forall j, (j < length ls)%nat -> (nth j ls 0 <= nth i ls 0)%Q.
Proof. apply filter_keeps_argmax. Qed.

(** ** [max_fn] on a finite row *)

Section MaxFnFacts.

Open Scope Q_scope.

Lemma max_fn_clamp (xs : list Q) :
  map (fun v => if ext_gt v (Fin 0) then v else Fin 0) (map Fin xs)
  = map Fin (map (fun x => if Qlt_bool 0 x then x else 0) xs).
Proof. rewrite !map_map. apply map_ext. intros x. unfold ext_gt. simpl. destruct (Qlt_bool 0 x); reflexivity. Qed.



Lemma softmax_nan_ninf {gen} (K : Torch gen) l :
  (forall v, In v l -> v = NaN \/ v = NInf) -> softmax K l = map (fun _ => NaN) l.
Proof.
  intros Hl. unfold softmax. destruct (existsb is_nan_or_pinf l); [reflexivity|].
  assert (max_fin l = None) as ->; [|reflexivity].
  induction l as [|a l IH]; [reflexivity|]. simpl.
  destruct (Hl a (or_introl eq_refl)) as [-> | ->]; apply IH; intros v Hv; apply Hl; right; exact Hv.
Qed.

End MaxFnFacts.

Lemma max_fn_nonpos (xs : list Q) :
  (forall x, In x xs -> (x <= 0)%Q) -> max_fn (map Fin xs) = map (fun _ => NaN) xs.
Proof.
  intros Hle.
  assert (Hc : map (fun x => if Qlt_bool 0 x then x else 0%Q) xs = map (fun _ => 0%Q) xs).
  { apply map_ext_in. intros x Hx. unfold Qlt_bool.
    assert (Qle_bool x 0 = true) as -> by (apply Qle_bool_iff; exact (Hle x Hx)). reflexivity. }
  assert (Hz : (fold_right Qplus 0%Q (map (fun _ => 0%Q) xs) == 0)%Q)
    by (clear; induction xs as [|a xs IH]; simpl; [reflexivity | rewrite IH; reflexivity]).
  unfold max_fn. rewrite max_fn_clamp, Hc, ext_sum_fin, !map_map. apply map_ext. intros _.
  unfold ext_div. apply Qeq_bool_iff in Hz. rewrite Hz. reflexivity.
Qed.

(** ** X6 *)


(** ** X7 *)

(** X7: on a row of finite values none of which is positive (for example
    [p - q] for two equal rows), [max_fn] divides 0 by a zero sum and
    returns NaN in every entry. *)
Theorem max_fn_no_positive (xs : list Q) :
  (forall x, In x xs -> (x <= 0)%Q) -> max_fn (map Fin xs) = map (fun _ => NaN) xs.
Proof. apply max_fn_nonpos. Qed.

(** ** [sample] on a NaN row *)

Lemma sample_nan_row {gen} (K : Torch gen)
  (Hnan : forall probs g, In NaN probs -> multinomial K probs g = None)
  (l : list ext) T k p (g : gen) :
  l <> [] -> (forall v, In v l -> v = NaN) ->
  sample K l T k p g = inl (RuntimeError invalid_probabilities).
Proof.
  intros Hne Hl. unfold sample. cbv zeta.
  assert (Hsc : forall v, In v (map (fun v => ext_div v (Fin T)) l) -> v = NaN).
  { intros v Hv. apply in_map_iff in Hv. destruct Hv as [u [<- Hu]]. rewrite (Hl u Hu). reflexivity. }
  destruct (filter_masks K (map (fun v => ext_div v (Fin T)) l) k p) as [HFl HF].
  assert (HFv : forall v, In v (top_k_top_p_filter K (map (fun v => ext_div v (Fin T)) l) k p) ->
                  v = NaN \/ v = NInf).
  { intros v Hv. apply In_nth_error in Hv. destruct Hv as [i Hi].
    destruct (HF i v Hi) as [-> | Hv]; [auto|]. left. exact (Hsc v (nth_error_In _ _ Hv)). }
  rewrite (softmax_nan_ninf K _ HFv).
  unfold bind, multinomial_m. rewrite Hnan; [reflexivity|].
  destruct (top_k_top_p_filter K (map (fun v => ext_div v (Fin T)) l) k p) as [|v F'].
  - simpl in HFl. destruct l; [contradiction | discriminate].
  - left. reflexivity.
Qed.

Lemma sub_rows_nonpos (prow qrow : list Q) :
  Forall2 (fun a b => (a <= b)%Q) prow qrow ->
  vsub (map Fin prow) (map Fin qrow) = Some (map Fin (map (fun '(a, b) => (a + - b)%Q) (combine prow qrow))) /\
  forall x, In x (map (fun '(a, b) => (a + - b)%Q) (combine prow qrow)) -> (x <= 0)%Q.
Proof.
  intros H. split.
  - unfold vsub. rewrite !length_map, (Forall2_length H), Nat.eqb_refl. f_equal.
    clear. revert qrow. induction prow as [|a prow IH]; intros [|b qrow]; simpl; auto.
    rewrite IH. reflexivity.
  - induction H as [|a b prow qrow Hab _ IH]; simpl; [tauto|].
    intros x [<- | Hx]; [lra | exact (IH x Hx)].
Qed.

(** ** X8 *)

(** X8: [sample] on a non-empty row of NaN logits, with any temperature,
    [top_k] and [top_p], raises the RuntimeError of [torch.multinomial]
    (which rejects probability vectors holding NaN): the NaN survives the
    scaling, the filter and the softmax. *)
Theorem sample_nan_raises {gen} (K : Torch gen)
  (Hnan : forall probs g, In NaN probs -> multinomial K probs g = None)
  (l : list ext) (T : Q) top_k top_p (g : gen) :
  l <> [] -> (forall v, In v l -> v = NaN) ->
  sample K l T top_k top_p g = inl (RuntimeError invalid_probabilities).
Proof. apply sample_nan_row. exact Hnan. Qed.

(** ** X9 *)

(** X9: when a round rejects at position [n] and the target row [p[n]] is
    nowhere above the draft row [q[n]] (both finite, of the same non-zero
    length), the residual [max_fn (p[n] - q[n])] is NaN everywhere and the
    bonus token's [sample] raises the RuntimeError of [torch.multinomial]. *)
Theorem residual_nonpositive_raises {gen} (K : Torch gen)
  (Hnan : forall probs g, In NaN probs -> multinomial K probs g = None)
  gamma (temperature : Q) top_k top_p (p q : list (list ext)) prefix_len n
  (prow qrow : list Q) (g : gen) :
  (n < prefix_len + gamma - 1)%nat ->
  nth_error p n = Some (map Fin prow) -> nth_error q n = Some (map Fin qrow) ->
  prow <> [] -> Forall2 (fun a b => (a <= b)%Q) prow qrow ->
  next_token K gamma temperature top_k top_p p q prefix_len n g
  = inl (RuntimeError invalid_probabilities).
Proof.
  intros Hn Hp Hq Hne H2. destruct (sub_rows_nonpos prow qrow H2) as [Hd Hle].
  unfold next_token. assert (Nat.ltb n (prefix_len + gamma - 1) = true) as -> by (apply Nat.ltb_lt; exact Hn).
  unfold bind, lookup. rewrite Hp, Hq. unfold ret. rewrite Hd, (max_fn_nonpos _ Hle).
  apply sample_nan_row; [exact Hnan| |].
  - destruct prow as [|a prow]; [contradiction|]. inversion H2. discriminate.
  - intros v Hv. apply in_map_iff in Hv. destruct Hv as [_ [<- _]]. reflexivity.
Qed.

(** ** The two [assert]s of [speculative_sampling] *)

Lemma sample_not_assert {gen} (K : Torch gen) l T k p (g : gen) :
  sample K l T k p g <> inl AssertionError.
Proof.
  unfold sample, bind, multinomial_m. destruct (multinomial K _ g) as [[i g']|]; [|discriminate].
  destruct (Nat.eqb i 0); discriminate.
Qed.

Section NoAssert.

Context {gen : Type} (K : Torch gen).
Variables approx_model target_model : list nat -> list (list Q).
Variables (gamma : nat) (temperature : Q) (top_k : nat) (top_p : Q).
Hypothesis Hshape : forall x, length (target_model x) = length x.

Lemma draft_loop_not_assert k x qo g :
  draft_loop K approx_model temperature top_k top_p k x qo g <> inl AssertionError.
Proof.
  revert x qo g. induction k as [|k IH]; intros x qo g; simpl; [discriminate|].
  unfold bind at 1. unfold lookup_last. destruct (rev (approx_model x)) as [|row r]; [discriminate|].
  unfold ret, bind. destruct (sample K (map Fin row) temperature top_k top_p g) as [e|[t g1]] eqn:E.
  - intros H. injection H as ->. exact (sample_not_assert _ _ _ _ _ _ E).
  - apply IH.
Qed.

Lemma accept_scan_not_assert p q x pl i k g :
  accept_scan K gamma p q x pl i k g <> inl AssertionError.
Proof.
  revert i g. induction k as [|k IH]; intros i g; simpl; [discriminate|].
  unfold bind, rand_m. destruct (rand K g) as [r g1].
  destruct (ratio_at p q x pl i) as [ratio|]; [|discriminate].
  destruct (reject_test r ratio); [discriminate | apply IH].
Qed.

Lemma next_token_not_assert p q pl n g :
  (n < pl + gamma - 1 \/ n = length p - 1)%nat ->
  next_token K gamma temperature top_k top_p p q pl n g <> inl AssertionError.
Proof.
  intros Hn. unfold next_token. destruct (Nat.ltb n (pl + gamma - 1)) eqn:E.
  - unfold bind, lookup. destruct (nth_error p n); [|discriminate].
    destruct (nth_error q n); [|discriminate]. unfold ret.
    destruct (vsub _ _); [apply sample_not_assert | discriminate].
  - apply Nat.ltb_ge in E. assert (Nat.eqb n (length p - 1) = true) as -> by (apply Nat.eqb_eq; lia).
    unfold bind, lookup_last. destruct (rev p); [discriminate|]. apply sample_not_assert.
Qed.

Lemma spec_round_not_assert prefix g :
  spec_round K approx_model target_model gamma temperature top_k top_p prefix g
  <> inl AssertionError.
Proof.
  unfold spec_round. unfold bind at 1.
  destruct (draft_loop K approx_model temperature top_k top_p gamma prefix None g)
    as [e|[[x qo] g1]] eqn:Ed.
  - intros H. injection H as ->. exact (draft_loop_not_assert _ _ _ _ Ed).
  - destruct (draft_loop_inr K approx_model temperature top_k top_p _ _ _ _ _ _ _ Ed)
      as (d & -> & Hlen & _ & _ & _).
    destruct qo as [ql|]; [|discriminate].
    unfold bind at 1.
    destruct (accept_scan K gamma _ _ _ _ 0 gamma g1) as [e|[n g2]] eqn:Ea.
    + intros H. injection H as ->. exact (accept_scan_not_assert _ _ _ _ _ _ _ Ea).
    + apply accept_scan_range in Ea; [|lia].
      assert (Nat.leb (length prefix - 1) n = true) as -> by (apply Nat.leb_le; lia).
      unfold bind. destruct (next_token _ _ _ _ _ _ _ _ _ g2) as [e|[t g3]] eqn:En; [|discriminate].
      intros H. injection H as ->. revert En. apply next_token_not_assert.
      rewrite length_map, Hshape, length_app. lia.
Qed.

Lemma spec_loop_not_assert fuel T prefix g :
  spec_loop K approx_model target_model gamma temperature top_k top_p fuel T prefix g
  <> inl AssertionError.
Proof.
  revert prefix g. induction fuel as [|fuel IH]; intros prefix g; simpl.
  - destruct (Nat.ltb (length prefix) T); discriminate.
  - destruct (Nat.ltb (length prefix) T); [|discriminate]. unfold bind.
    destruct (spec_round K approx_model target_model gamma temperature top_k top_p prefix g)
      as [e|[[res n] g1]] eqn:Er.
    + intros H. injection H as ->. exact (spec_round_not_assert _ _ Er).
    + apply IH.
Qed.

End NoAssert.

(** ** X10 *)

(** X10: [speculative_sampling] with [max_len = 0] returns the prefix
    unchanged without drawing any random number; with [gamma = 0] and
    [max_len > 0] it raises UnboundLocalError, since [q] is read after a
    drafting loop that never ran. *)
Theorem speculative_sampling_degenerate {gen} (K : Torch gen)
  (approx_model target_model : list nat -> list (list Q))
  gamma temperature top_k top_p (prefix : list nat) m (g : gen) :
  speculative_sampling K approx_model target_model gamma temperature top_k top_p prefix 0 g
    = inr (prefix, g) /\
  speculative_sampling K approx_model target_model 0 temperature top_k top_p prefix (S m) g
    = inl UnboundLocalError.
Proof.
  unfold speculative_sampling. split; simpl.
  - rewrite Nat.add_0_r, Nat.ltb_irrefl. reflexivity.
  - assert (Nat.ltb (length prefix) (length prefix + S m) = true) as -> by (apply Nat.ltb_lt; lia).
    reflexivity.
Qed.

(** ** X11 *)

(** X11: when the target model returns one row of logits per input token,
    neither [assert] of [speculative_sampling] ever fails: the run never
    ends in AssertionError, whatever the draft model, [gamma], [max_len] and
    random draws. *)
Theorem speculative_sampling_no_assertion_error {gen} (K : Torch gen)
  (approx_model target_model : list nat -> list (list Q))
  gamma temperature top_k top_p (prefix : list nat) max_len (g : gen) :
  (forall x, length (target_model x) = length x) ->
  speculative_sampling K approx_model target_model gamma temperature top_k top_p prefix max_len g
  <> inl AssertionError.
Proof. intros Hshape. apply spec_loop_not_assert. exact Hshape. Qed.

(** ** X12 *)

(** X12: on an empty input sequence, with models that return no rows for
    it, both samplers fail at their first model call with IndexError
    ([logits[:, -1, :]] of an empty sequence): [speculative_sampling] for
    [gamma > 0] and [max_len > 0], [autoregressive_sampling] for [N > 0]. *)
Theorem empty_prefix_index_error {gen} (K : Torch gen)
  (approx_model target_model model : list nat -> list (list Q))
  gamma temperature top_k top_p max_len N (g : gen) :
  approx_model [] = [] -> model [] = [] ->
  (0 < gamma)%nat -> (0 < max_len)%nat -> (0 < N)%nat ->
  speculative_sampling K approx_model target_model gamma temperature top_k top_p [] max_len g
    = inl IndexError /\
  autoregressive_sampling K model temperature top_k top_p [] N g = inl IndexError.
Proof.
  intros Ha Hm Hg Hl HN.
  destruct gamma as [|gamma]; [lia|]. destruct max_len as [|max_len]; [lia|].
  destruct N as [|N]; [lia|]. split.
  - unfold speculative_sampling. simpl. unfold spec_round, bind. simpl.
    unfold bind, lookup_last. rewrite Ha. reflexivity.
  - unfold autoregressive_sampling. simpl. unfold bind, lookup_last. rewrite Hm. reflexivity.
Qed.

(** ** Which exceptions a run can end in *)





Section Robust.

Context {gen : Type} (K : Torch gen).
Hypothesis Hsupp : forall probs g i g', multinomial K probs g = Some (i, g') ->
  exists w, nth_error probs i = Some (Fin w) /\ (0 < w)%Q.
Variables approx_model target_model : list nat -> list (list Q).
Variables (gamma : nat) (temperature : Q) (top_k : nat) (top_p : Q) (V : nat).
Hypothesis Happrox_len : forall x, length (approx_model x) = length x.
Hypothesis Htarget_len : forall x, length (target_model x) = length x.
Hypothesis Happrox_rows : forall x row, In row (approx_model x) -> length row = V.
Hypothesis Htarget_rows : forall x row, In row (target_model x) -> length row = V.








End Robust.


(** ** X13 *)


(** ** X14 *)


(** * Runs of the theorems above on the test bed *)

Lemma testbed_exp_nonneg x : (0 <= exp Testbed.torch x)%Q.
Proof.
  cbn [exp Testbed.torch]. unfold Testbed.exp_test.
  destruct (Qle_bool x (-104)) eqn:E1; [apply Qle_refl|].
  destruct (Qle_bool x 0) eqn:E2.
  - apply Qle_bool_iff in E2. apply Qle_shift_div_l; lra.
  - assert (~ (x <= 0)%Q) by (intros Hc; apply Qle_bool_iff in Hc; congruence). lra.
Qed.

Lemma fin_weights_nan probs : In NaN probs -> Testbed.fin_weights probs = None.
Proof.
  induction probs as [|v probs IH]; intros Hin; [destruct Hin|].
  destruct Hin as [-> | Hin]; [reflexivity|]. simpl.
  destruct v; try reflexivity. rewrite (IH Hin). destruct (Qle_bool 0 q); reflexivity.
Qed.

Lemma testbed_nan probs g : In NaN probs -> multinomial Testbed.torch probs g = None.
Proof.
  intros Hin. cbn [multinomial Testbed.torch]. unfold Testbed.multinomial_inv.
  rewrite (fin_weights_nan _ Hin). reflexivity.
Qed.


Lemma filter_keeps_max_witness :
  exists i, (i < length [0; 2; 1]%Q)%nat /\
    nth_error (top_k_top_p_filter Testbed.torch (map Fin [0; 2; 1]%Q) 1 (1#2)) i
      = Some (Fin (nth i [0; 2; 1]%Q 0%Q)) /\
    forall j, (j < length [0; 2; 1]%Q)%nat -> (nth j [0; 2; 1]%Q 0 <= nth i [0; 2; 1]%Q 0)%Q.
Proof. apply (filter_keeps_max Testbed.torch [0; 2; 1]%Q 1 (1#2)). discriminate. Defined.

Lemma topk_keeps_highest_witness :
  (exists S, NoDup S /\ length S = Nat.min 2 (length [0; 2; 1]%Q) /\
     forall i, In i S -> (i < length [0; 2; 1]%Q)%nat /\
       nth_error (top_k_top_p_filter Testbed.torch (map Fin [0; 2; 1]%Q) 2 0) i
         = Some (Fin (nth i [0; 2; 1]%Q 0%Q))) /\
  (forall i j, nth_error (top_k_top_p_filter Testbed.torch (map Fin [0; 2; 1]%Q) 2 0) i = Some NInf ->
     nth_error (top_k_top_p_filter Testbed.torch (map Fin [0; 2; 1]%Q) 2 0) j
       = Some (Fin (nth j [0; 2; 1]%Q 0%Q)) ->
     (nth i [0; 2; 1]%Q 0 < nth j [0; 2; 1]%Q 0)%Q) /\
  ((length [0; 2; 1]%Q <= 2)%nat ->
     top_k_top_p_filter Testbed.torch (map Fin [0; 2; 1]%Q) 2 0 = map Fin [0; 2; 1]%Q).
Proof. apply (topk_keeps_highest Testbed.torch [0; 2; 1]%Q 2). lia. Defined.

Lemma norm_logits_distribution_witness :
  exists ws, norm_logits Testbed.torch [0; 1]%Q = map Fin ws /\ length ws = length [0; 1]%Q /\
    Forall (Qle 0) ws /\ (fold_right Qplus 0%Q ws == 1)%Q.
Proof.
  apply (norm_logits_distribution Testbed.torch testbed_exp0 testbed_exp_nonneg [0; 1]%Q).
  discriminate.
Defined.



Lemma max_fn_no_positive_witness :
  max_fn (map Fin [0; -1]%Q) = map (fun _ => NaN) [0; -1]%Q.
Proof.
  apply (max_fn_no_positive [0; -1]%Q).
  intros x [<- | [<- | []]]; apply Qle_bool_iff; reflexivity.
Defined.

Lemma sample_nan_raises_witness :
  sample Testbed.torch [NaN; NaN] 1 1 (1#2) Testbed.halves = inl (RuntimeError invalid_probabilities).
Proof.
  apply (sample_nan_raises Testbed.torch testbed_nan [NaN; NaN] 1 1 (1#2) Testbed.halves).
  - discriminate.
  - intros v [<- | [<- | []]]; reflexivity.
Defined.

Lemma residual_nonpositive_raises_witness :
  next_token Testbed.torch 2 1 0 0 [map Fin [1#2; 1#2]%Q] [map Fin [1#2; 1#2]%Q] 1 0 Testbed.halves
  = inl (RuntimeError invalid_probabilities).
Proof.
  apply (residual_nonpositive_raises Testbed.torch testbed_nan 2 1 0 0
           [map Fin [1#2; 1#2]%Q] [map Fin [1#2; 1#2]%Q] 1 0 [1#2; 1#2]%Q [1#2; 1#2]%Q Testbed.halves).
  - lia.
  - reflexivity.
  - reflexivity.
  - discriminate.
  - repeat constructor; apply Qle_refl.
Defined.

Lemma speculative_sampling_no_assertion_error_witness :
  speculative_sampling Testbed.torch Testbed.causal_lm Testbed.causal_lm 2 1 0 0 [1%nat] 3
    Testbed.halves <> inl AssertionError.
Proof.
  apply (speculative_sampling_no_assertion_error Testbed.torch Testbed.causal_lm Testbed.causal_lm
           2 1 0 0 [1%nat] 3 Testbed.halves).
  intros x. apply length_map.
Defined.

Lemma empty_prefix_index_error_witness :
  speculative_sampling Testbed.torch Testbed.causal_lm Testbed.causal_lm 1 1 0 0 [] 1 Testbed.halves
    = inl IndexError /\
  autoregressive_sampling Testbed.torch Testbed.causal_lm 1 0 0 [] 1 Testbed.halves = inl IndexError.
Proof.
  apply (empty_prefix_index_error Testbed.torch Testbed.causal_lm Testbed.causal_lm Testbed.causal_lm
           1 1 0 0 1 1 Testbed.halves); try reflexivity; lia.
Defined.


